(** * Call-session and media-stream lifecycle of the Twilio voice agent

    A shallow embedding of [index-websocket.js] (and of [index.js], the
    variant without media streams): the [VoiceAgent] class with its two
    JavaScript [Map]s, the webhook routes, the WebSocket connection
    handlers and the upgrade router, followed by the properties of the
    specification that are about them. *)

From Stdlib Require Import List String Ascii Bool Arith ZArith DecimalString.
Import ListNotations.
Open Scope string_scope.
Open Scope list_scope.

(** ** Decidable equality of map keys *)

Class EqDec (A : Type) := eq_dec : forall x y : A, {x = y} + {x <> y}.

#[export] Instance string_EqDec : EqDec string := string_dec.
#[export] Instance nat_EqDec : EqDec nat := Nat.eq_dec.
#[export] Instance option_EqDec {A} `{EqDec A} : EqDec (option A).
Proof.
  intros [x|] [y|]; try (right; discriminate); try (left; reflexivity).
  destruct (eq_dec x y) as [->|n]; [left; reflexivity|right; congruence].
Defined.

Definition eqb_of {A} `{EqDec A} (x y : A) : bool :=
  if eq_dec x y then true else false.

(** ** JavaScript [Map]

    A [Map] keeps its entries in insertion order, one entry per key:
    [set] on a key already there replaces the value where it stands,
    [set] on a new key appends, [delete] takes the entry out.
    [Array.from(m.entries())] is the list itself. *)

Module JsMap.
Section Defs.
Context {K V : Type} `{EqDec K}.

Definition t := list (K * V).

Definition empty : t := [].

Fixpoint get (k : K) (m : t) : option V :=
  match m with
  | [] => None
  | (k', v) :: m' => if eqb_of k k' then Some v else get k m'
  end.

Definition has (k : K) (m : t) : bool :=
  match get k m with Some _ => true | None => false end.

Fixpoint set (k : K) (v : V) (m : t) : t :=
  match m with
  | [] => [(k, v)]
  | (k', v') :: m' =>
      if eqb_of k k' then (k, v) :: m' else (k', v') :: set k v m'
  end.

Fixpoint delete (k : K) (m : t) : t :=
  match m with
  | [] => []
  | (k', v') :: m' =>
      if eqb_of k k' then m' else (k', v') :: delete k m'
  end.

Definition entries (m : t) : list (K * V) := m.

(** Number of entries stored under [k]. *)
Definition count (k : K) (m : t) : nat :=
  List.length (filter (fun e => eqb_of k (fst e)) m).

(** The representation invariant: no key occurs twice. *)
Fixpoint wf (m : t) : bool :=
  match m with
  | [] => true
  | (k, _) :: m' => negb (has k m') && wf m'
  end.
End Defs.
Arguments t : clear implicits.
End JsMap.

(** ** Request fields and template literals

    The webhook bodies are form-encoded: after [const { CallSid, ... } =
    req.body] a field is [undefined] ([None]) or a string. *)

Abbreviation field := (option string) (only parsing).

(** JavaScript truthiness of a field: [undefined] and the empty string
    are falsy, every other string is truthy. *)
Definition truthy (f : field) : bool :=
  match f with
  | None => false
  | Some EmptyString => false
  | Some (String _ _) => true
  end.

(** [`${f}`] inside a template literal. *)
Definition show (f : field) : string :=
  match f with
  | None => "undefined"
  | Some s => s
  end.

(** ** The call-control document built through [VoiceResponse] *)

Module TwiML.

Record say := { text : string; voice : string }.

Record gather_attrs := {
  numDigits : nat;
  action : string;
  method : string;
  timeout : nat;
  speechTimeout : string
}.

Inductive verb :=
| Say (s : say)
| Gather (a : gather_attrs) (nested : list say)
| Redirect (url : string)
| Hangup.

(** A [VoiceResponse] is the sequence of verbs appended to it so far. *)
Definition VoiceResponse := list verb.

Definition dquote : ascii := Ascii.ascii_of_nat 34.

(** Not in [src/]: the XML builder under the document-model library
    (a dependency of the program) refuses text and attribute values that
    hold a character XML 1.0 forbids, throwing "Invalid character in
    string": the control characters U+0000-U+0008, U+000B, U+000C and
    U+000E-U+001F, the non-characters U+FFFE and U+FFFF, and unpaired
    surrogates.  A string stands for the UTF-8 bytes of the text (an
    unpaired surrogate in its three-byte form), so these are the control
    bytes below, the byte sequences [EF BF BE] and [EF BF BF], and [ED]
    followed by a byte in [A0..BF]. *)
Definition forbidden_byte (c : ascii) : bool :=
  let n := N_of_ascii c in
  ((n <=? 8) || (n =? 11) || (n =? 12) || ((14 <=? n) && (n <=? 31)))%N.

(** What the bytes read so far may be the start of. *)
Inductive pending :=
| Plain
| SeenEF
| SeenEFBF
| SeenED.

Definition advance (c : ascii) (st : pending) : pending :=
  let n := N_of_ascii c in
  if (n =? 239)%N then SeenEF
  else if (n =? 237)%N then SeenED
  else match st with
       | SeenEF => if (n =? 191)%N then SeenEFBF else Plain
       | _ => Plain
       end.

(** [c] completes a forbidden character. *)
Definition completes (c : ascii) (st : pending) : bool :=
  let n := N_of_ascii c in
  match st with
  | SeenEFBF => ((n =? 190) || (n =? 191))%N
  | SeenED => ((160 <=? n) && (n <=? 191))%N
  | _ => false
  end.

Fixpoint scan (s : string) (st : pending) : option pending :=
  match s with
  | EmptyString => Some st
  | String c rest =>
      if forbidden_byte c || completes c st then None
      else scan rest (advance c st)
  end.

(** The text holds no character XML 1.0 forbids. *)
Definition legal_text (s : string) : bool :=
  match scan s Plain with
  | Some _ => true
  | None => false
  end.

(** Modelled from the spec: the escaping done by the document-model
    library when it serialises a text node or an attribute value (the
    library is a dependency and is not part of the sources).  The spec
    asks that "the echoed transcript must be escaped" and that the
    response is "HTML/XML-escaped if it contained reserved characters":
    each of the five reserved characters is replaced by its predefined
    entity. *)
Definition escape_char (c : ascii) : string :=
  if Ascii.eqb c "&" then "&amp;"
  else if Ascii.eqb c "<" then "&lt;"
  else if Ascii.eqb c ">" then "&gt;"
  else if Ascii.eqb c dquote then "&quot;"
  else if Ascii.eqb c "'" then "&apos;"
  else String c EmptyString.

(** Modelled from the spec: the escaping of a whole text node or
    attribute value by the library, one character after the other. *)
Fixpoint escape (s : string) : string :=
  match s with
  | EmptyString => EmptyString
  | String c s' => escape_char c ++ escape s'
  end.

(** Modelled from the spec: an attribute value as the library writes it,
    escaped and between double quotes. *)
Definition quoted (s : string) : string :=
  String dquote (escape s ++ String dquote EmptyString).

(** Modelled from the spec: one attribute of a start tag as the library
    writes it. *)
Definition attr (name value : string) : string :=
  " " ++ name ++ "=" ++ quoted value.

(** A numeric attribute ([numDigits: 1], [timeout: 3]) in decimal. *)
Definition show_nat (n : nat) : string :=
  DecimalString.NilEmpty.string_of_uint (Nat.to_uint n).

(** Modelled from the spec: the element the library writes for
    [twiml.say(text, { voice })]. *)
Definition say_xml (s : say) : string :=
  "<Say" ++ attr "voice" (voice s) ++ ">" ++ escape (text s) ++ "</Say>".

(** Modelled from the spec: the element the library writes for each
    verb of the document. *)
Definition verb_xml (v : verb) : string :=
  match v with
  | Say s => say_xml s
  | Gather a nested =>
      "<Gather" ++ attr "numDigits" (show_nat (numDigits a))
        ++ attr "action" (action a)
        ++ attr "method" (method a)
        ++ attr "timeout" (show_nat (timeout a))
        ++ attr "speechTimeout" (speechTimeout a) ++ ">"
        ++ String.concat EmptyString (map say_xml nested)
        ++ "</Gather>"
  | Redirect url => "<Redirect>" ++ escape url ++ "</Redirect>"
  | Hangup => "<Hangup/>"
  end.

(** Modelled from the spec: the XML declaration the library puts first. *)
Definition prolog : string :=
  "<?xml" ++ attr "version" "1.0" ++ attr "encoding" "UTF-8" ++ "?>".

(** Modelled from the spec: [twiml.toString()], the serialisation of the
    document model by the library (not part of the sources): the verbs in
    the order they were appended, inside one [Response] element, text and
    attribute values escaped. *)
Definition toString (r : VoiceResponse) : string :=
  prolog ++ "<Response>"
    ++ String.concat EmptyString (map verb_xml r) ++ "</Response>".

End TwiML.

(** ** State of the process *)

(** A WebSocket (and the socket under it) is known by its handle. *)
Definition handle := nat.

(** Value of [callSessions]: the object literal of [handleIncoming]. *)
Record session := {
  from : field;
  to : field;
  startTime : Z;
  active : bool
}.

(** Value of [mediaStreams]: the object literal of
    [registerMediaStream]; a frame payload is [data.media?.payload],
    which is [undefined] when the message carries none. *)
Record stream := {
  websocket : handle;
  streamStartTime : Z;
  audioBuffer : list field
}.

Record VoiceAgent := {
  callSessions : JsMap.t field session;
  mediaStreams : JsMap.t field stream
}.

(** [new VoiceAgent()] *)
Definition newVoiceAgent : VoiceAgent :=
  {| callSessions := JsMap.empty; mediaStreams := JsMap.empty |}.

(** Frames sent on a WebSocket: [JSON.stringify({event: 'connected',
    callSid})] is the only one. *)
Inductive frame :=
| Connected (callSid : string).

(** What a handler does to the outside, in the order it does it. *)
Inductive effect :=
| ConsoleLog (line : string)
| ConsoleError (line : string)
| WsClose (ws : handle)
| WsSend (ws : handle) (f : frame)
| SocketDestroy (socket : handle).

Record World := {
  agent : VoiceAgent;
  clock : Z;
  trace : list effect
}.

Definition initial (now : Z) : World :=
  {| agent := newVoiceAgent; clock := now; trace := [] |}.

(** ** A state monad for the handlers *)

Definition M (A : Type) : Type := World -> A * World.

Definition ret {A} (a : A) : M A := fun w => (a, w).

Definition bind {A B} (m : M A) (k : A -> M B) : M B :=
  fun w => let (a, w') := m w in k a w'.

Declare Scope js_scope.
Delimit Scope js_scope with js.
Notation "x <- m ;; k" := (bind m (fun x => k))
  (at level 61, m at next level, right associativity) : js_scope.
Notation "m ;; k" := (bind m (fun _ => k))
  (at level 61, right associativity) : js_scope.
Open Scope js_scope.

Definition exec {A} (m : M A) (w : World) : World := snd (m w).
Definition eval {A} (m : M A) (w : World) : A := fst (m w).

Definition emit (e : effect) : M unit :=
  fun w => (tt, {| agent := agent w; clock := clock w;
                   trace := trace w ++ [e] |}).

Definition console_log (line : string) : M unit := emit (ConsoleLog line).
Definition console_error (line : string) : M unit := emit (ConsoleError line).

(** [new Date()] *)
Definition new_Date : M Z := fun w => (clock w, w).

Definition this_callSessions : M (JsMap.t field session) :=
  fun w => (callSessions (agent w), w).

Definition this_mediaStreams : M (JsMap.t field stream) :=
  fun w => (mediaStreams (agent w), w).

Definition update_callSessions
    (f : JsMap.t field session -> JsMap.t field session) : M unit :=
  fun w => (tt, {| agent := {| callSessions := f (callSessions (agent w));
                               mediaStreams := mediaStreams (agent w) |};
                   clock := clock w; trace := trace w |}).

Definition update_mediaStreams
    (f : JsMap.t field stream -> JsMap.t field stream) : M unit :=
  fun w => (tt, {| agent := {| callSessions := callSessions (agent w);
                               mediaStreams := f (mediaStreams (agent w)) |};
                   clock := clock w; trace := trace w |}).

(** ** class VoiceAgent *)

Import TwiML.

Definition Polly_Amy : string := "Polly.Amy".

(** What a handler can throw: the builder's [Error] "Invalid character
    in string: ..." for the text it was given, and the [TypeError] of
    reading [.replace] of [undefined]. *)
Inductive exn :=
| InvalidCharacter (text : string)
| UndefinedReplace.

(** [twiml.say(text, { voice })]: appends the verb, or throws on text the
    builder refuses. *)
Definition twiml_say (text voice : string) (twiml : VoiceResponse)
  : exn + VoiceResponse :=
  if legal_text text then inr (twiml ++ [Say {| text := text; voice := voice |}])
  else inl (InvalidCharacter text).

(** The utterance of the initial greeting. *)
Definition greeting : string :=
  "Welcome to the voice agent. Please speak after the beep.".

(** [inl] is what the method throws. *)
Definition generateTwiML (callSid : field) (speechResult : field)
  : exn + VoiceResponse :=
  let twiml : VoiceResponse := [] in
  match
    (if truthy speechResult then
       twiml_say ("You said: " ++ show speechResult) Polly_Amy twiml
     else
       twiml_say greeting Polly_Amy twiml)
  with
  | inl e => inl e
  | inr twiml =>
      let gather := {| numDigits := 1;
                       action := "/voice/handle-input";
                       method := "POST";
                       timeout := 3;
                       speechTimeout := "auto" |} in
      let twiml :=
        twiml ++ [Gather gather
                    [{| text := "Please say something or press a key.";
                        voice := Polly_Amy |}]] in
      inr (twiml ++ [Redirect "/voice/end-call"])
  end.

(** The document [generateTwiML] builds around the utterance [t]. *)
Definition prompt_twiml (t : string) : VoiceResponse :=
  [Say {| text := t; voice := Polly_Amy |};
   Gather {| numDigits := 1;
             action := "/voice/handle-input";
             method := "POST";
             timeout := 3;
             speechTimeout := "auto" |}
          [{| text := "Please say something or press a key.";
              voice := Polly_Amy |}];
   Redirect "/voice/end-call"].

Definition handleIncoming (callSid from to : field) : M unit :=
  now <- new_Date ;;
  update_callSessions
    (JsMap.set callSid
       {| from := from; to := to; startTime := now; active := true |}).

(** [this.callSessions.get(callSid).active = false] writes the field of
    the object the map holds: the entry keeps its place and its other
    fields. *)
Definition deactivate (s : session) : session :=
  {| from := from s; to := to s; startTime := startTime s; active := false |}.

Definition endCall (callSid : field) : M unit :=
  sessions <- this_callSessions ;;
  if JsMap.has callSid sessions then
    match JsMap.get callSid sessions with
    | Some s => update_callSessions (JsMap.set callSid (deactivate s))
    | None => ret tt
    end
  else ret tt.

Definition registerMediaStream (callSid : field) (websocket : handle)
  : M unit :=
  now <- new_Date ;;
  update_mediaStreams
    (JsMap.set callSid
       {| websocket := websocket; streamStartTime := now;
          audioBuffer := [] |}).

Definition getMediaStream (callSid : field) : M (option stream) :=
  streams <- this_mediaStreams ;;
  ret (JsMap.get callSid streams).

(** A registered [websocket] is always a WebSocket object, hence truthy:
    [stream && stream.websocket] holds exactly when the entry exists. *)
Definition closeMediaStream (callSid : field) : M unit :=
  stream <- getMediaStream callSid ;;
  match stream with
  | Some s => emit (WsClose (websocket s))
  | None => ret tt
  end ;;
  update_mediaStreams (JsMap.delete callSid).

(** ** HTTP routes *)

Record body := {
  CallSid : field;
  From : field;
  To : field;
  SpeechResult : field;
  Digits : field;
  CallStatus : field
}.

(** One element of the [calls] array: [{ callSid, ...session }]. *)
Record call_entry := {
  callSid : field;
  entry_from : field;
  entry_to : field;
  entry_startTime : Z;
  entry_active : bool
}.

(** What is sent: nothing, a text, the JSON of the active calls, or the
    JSON of the error middleware, whose [message] is that of the error
    [cause]. *)
Inductive payload :=
| NoBody
| Text (s : string)
| CallsJson (activeCalls : nat) (calls : list call_entry)
| ErrorJson (error : string) (cause : exn).

(** What the handler itself sets on [res]. *)
Record response := {
  status : nat;
  contentType : option string;
  content : payload
}.

Definition send_xml (twiml : VoiceResponse) : response :=
  {| status := 200; contentType := Some "text/xml";
     content := Text (toString twiml) |}.

(** [res.status(500).json({ error: 'Internal server error', message:
    err.message })] *)
Definition error_response (err : exn) : response :=
  {| status := 500; contentType := None;
     content := ErrorJson "Internal server error" err |}.

(** The error-handling middleware, [app.use((err, req, res, next) =>
    ...)], the same in both files: the framework hands it what a route
    handler throws. *)
Definition error_middleware (err : exn) : M response :=
  console_error "Error:" ;;
  ret (error_response err).

(** The document of [/voice/handle-input], before it is serialised;
    [inl] is what building it throws. *)
Definition handle_input_twiml (SpeechResult Digits : field)
  : exn + VoiceResponse :=
  let twiml : VoiceResponse := [] in
  match
    (if truthy SpeechResult then
       twiml_say ("I understood: " ++ show SpeechResult) Polly_Amy twiml
     else if truthy Digits then
       twiml_say ("You pressed: " ++ show Digits) Polly_Amy twiml
     else
       twiml_say "No input received. Goodbye!" Polly_Amy twiml)
  with
  | inl e => inl e
  | inr twiml => inr (twiml ++ [Hangup])
  end.

Definition end_call_twiml : VoiceResponse :=
  [Say {| text := "Thank you for calling. Goodbye!"; voice := Polly_Amy |};
   Hangup].

Definition list_active (sessions : JsMap.t field session) : list call_entry :=
  map (fun e : field * session =>
         let (callSid, session) := e in
         {| callSid := callSid;
            entry_from := from session;
            entry_to := to session;
            entry_startTime := startTime session;
            entry_active := active session |})
      (filter (fun e : field * session => active (snd e))
              (JsMap.entries sessions)).

(** The routes of [index-websocket.js]. *)
Module IndexWebsocket.

Definition post_voice_incoming (b : body) : M response :=
  console_log ("Incoming call - CallSid: " ++ show (CallSid b)
               ++ ", From: " ++ show (From b)
               ++ ", To: " ++ show (To b)) ;;
  handleIncoming (CallSid b) (From b) (To b) ;;
  match generateTwiML (CallSid b) None with
  | inr twiml => ret (send_xml twiml)
  | inl err => error_middleware err
  end.

Definition post_voice_handle_input (b : body) : M response :=
  console_log ("Input - CallSid: " ++ show (CallSid b)
               ++ ", Speech: " ++ show (SpeechResult b)
               ++ ", Digits: " ++ show (Digits b)) ;;
  match handle_input_twiml (SpeechResult b) (Digits b) with
  | inr twiml => ret (send_xml twiml)
  | inl err => error_middleware err
  end.

Definition post_voice_end_call (b : body) : M response :=
  console_log ("Ending call - CallSid: " ++ show (CallSid b)) ;;
  endCall (CallSid b) ;;
  closeMediaStream (CallSid b) ;;
  ret (send_xml end_call_twiml).

Definition post_voice_status_callback (b : body) : M response :=
  console_log ("Call Status - CallSid: " ++ show (CallSid b)
               ++ ", Status: " ++ show (CallStatus b)) ;;
  ret {| status := 200; contentType := None; content := NoBody |}.

Definition get_voice_calls : M response :=
  sessions <- this_callSessions ;;
  let activeCalls := list_active sessions in
  ret {| status := 200; contentType := None;
         content := CallsJson (List.length activeCalls) activeCalls |}.

(** *** WebSocket connections *)

(** [JSON.parse(message)] followed by the reads of [data.event] and
    [data.media?.payload]: either the [try] block throws ([JSON.parse]
    fails, or [data] is [null]), or [data.event] is compared with the
    three event names. *)
Inductive message :=
| Malformed
| Data (event : field) (media_payload : field).

Definition push (s : stream) (audioData : field) : stream :=
  {| websocket := websocket s; streamStartTime := streamStartTime s;
     audioBuffer := audioBuffer s ++ [audioData] |}.

Definition ws_on_message (callSid : string) (m : message) : M unit :=
  match m with
  | Malformed => console_error "WebSocket message error:"
  | Data event audioData =>
      if eqb_of event (Some "start") then
        console_log ("Media stream started: " ++ callSid)
      else if eqb_of event (Some "media") then
        stream <- getMediaStream (Some callSid) ;;
        match stream with
        | Some s => update_mediaStreams (JsMap.set (Some callSid) (push s audioData))
        | None => ret tt
        end
      else if eqb_of event (Some "stop") then
        console_log ("Media stream stopped: " ++ callSid) ;;
        closeMediaStream (Some callSid)
      else ret tt
  end.

Definition ws_on_error (callSid : string) : M unit :=
  console_error ("WebSocket error for " ++ callSid ++ ":").

Definition ws_on_close (callSid : string) : M unit :=
  console_log ("WebSocket closed for media stream: " ++ callSid) ;;
  closeMediaStream (Some callSid).

Definition wss_on_connection (ws : handle) (callSid : string) : M unit :=
  console_log ("WebSocket connected for media stream: " ++ callSid) ;;
  registerMediaStream (Some callSid) ws ;;
  emit (WsSend ws (Connected callSid)).

(** *** Upgrade routing: [/^\/media\/([A-Za-z0-9]+)$/] *)

Definition is_alnum (c : ascii) : bool :=
  let n := nat_of_ascii c in
  ((65 <=? n)%nat && (n <=? 90)%nat)
  || ((97 <=? n)%nat && (n <=? 122)%nat)
  || ((48 <=? n)%nat && (n <=? 57)%nat).

Fixpoint all_alnum (s : string) : bool :=
  match s with
  | EmptyString => true
  | String c s' => is_alnum c && all_alnum s'
  end.

Fixpoint strip_prefix (p s : string) : option string :=
  match p, s with
  | EmptyString, _ => Some s
  | String a p', String b s' =>
      if Ascii.eqb a b then strip_prefix p' s' else None
  | String _ _, EmptyString => None
  end.

(** [pathname.match(...)]: [Some] of the captured group, or [None]. *)
Definition match_media (pathname : string) : option string :=
  match strip_prefix "/media/" pathname with
  | Some (String c rest) =>
      if all_alnum (String c rest) then Some (String c rest) else None
  | _ => None
  end.

(** The ['upgrade'] handler, installed alike on the HTTP server and on the
    HTTPS server.  [wss.handleUpgrade] wraps the socket in a WebSocket
    (the same handle) and the callback emits ['connection'] at once. *)
Definition server_on_upgrade (url : string) (socket : handle) : M unit :=
  let pathname := url in
  match match_media pathname with
  | Some callSid => wss_on_connection socket callSid
  | None => emit (SocketDestroy socket)
  end.

(** *** The event loop: one event at a time, each at its own instant *)

Inductive event :=
| PostIncoming (b : body)
| PostHandleInput (b : body)
| PostEndCall (b : body)
| PostStatusCallback (b : body)
| GetCalls
| Upgrade (url : string) (socket : handle)
| WsMessage (callSid : string) (m : message)
| WsError (callSid : string)
| WsClosed (callSid : string).

Definition at_time (now : Z) : M unit :=
  fun w => (tt, {| agent := agent w; clock := now; trace := trace w |}).

Definition handle_event (e : event) : M (option response) :=
  match e with
  | PostIncoming b => r <- post_voice_incoming b ;; ret (Some r)
  | PostHandleInput b => r <- post_voice_handle_input b ;; ret (Some r)
  | PostEndCall b => r <- post_voice_end_call b ;; ret (Some r)
  | PostStatusCallback b => r <- post_voice_status_callback b ;; ret (Some r)
  | GetCalls => r <- get_voice_calls ;; ret (Some r)
  | Upgrade url socket => server_on_upgrade url socket ;; ret None
  | WsMessage callSid m => ws_on_message callSid m ;; ret None
  | WsError callSid => ws_on_error callSid ;; ret None
  | WsClosed callSid => ws_on_close callSid ;; ret None
  end.

Definition step (w : World) (te : Z * event) : World :=
  exec (at_time (fst te) ;; handle_event (snd te)) w.

Definition run (w : World) (tes : list (Z * event)) : World :=
  fold_left step tes w.

End IndexWebsocket.

(** The routes of [index.js]: the same agent without media streams. *)
Module IndexJs.

Definition post_voice_incoming (b : body) : M response :=
  console_log ("Incoming call - CallSid: " ++ show (CallSid b)
               ++ ", From: " ++ show (From b)
               ++ ", To: " ++ show (To b)) ;;
  handleIncoming (CallSid b) (From b) (To b) ;;
  match generateTwiML (CallSid b) None with
  | inr twiml => ret (send_xml twiml)
  | inl err => error_middleware err
  end.

Definition post_voice_handle_input (b : body) : M response :=
  console_log ("Input - CallSid: " ++ show (CallSid b)
               ++ ", Speech: " ++ show (SpeechResult b)
               ++ ", Digits: " ++ show (Digits b)) ;;
  match handle_input_twiml (SpeechResult b) (Digits b) with
  | inr twiml => ret (send_xml twiml)
  | inl err => error_middleware err
  end.

Definition post_voice_end_call (b : body) : M response :=
  console_log ("Ending call - CallSid: " ++ show (CallSid b)) ;;
  endCall (CallSid b) ;;
  ret (send_xml end_call_twiml).

Definition post_voice_status_callback (b : body) : M response :=
  console_log ("Call Status - CallSid: " ++ show (CallSid b)
               ++ ", Status: " ++ show (CallStatus b)) ;;
  ret {| status := 200; contentType := None; content := NoBody |}.

Definition get_voice_calls : M response :=
  sessions <- this_callSessions ;;
  let activeCalls := list_active sessions in
  ret {| status := 200; contentType := None;
         content := CallsJson (List.length activeCalls) activeCalls |}.

End IndexJs.

(** * Vocabulary of the properties

    Predicates, observations on the trace and the concrete states the
    theorems are stated and tried on. *)

Import IndexWebsocket.

Definition wf_agent (a : VoiceAgent) : bool :=
  JsMap.wf (callSessions a) && JsMap.wf (mediaStreams a).

Ltac unfold_routes :=
  unfold step, run, handle_event,
    IndexWebsocket.post_voice_incoming, IndexWebsocket.post_voice_handle_input,
    IndexWebsocket.post_voice_end_call,
    IndexWebsocket.post_voice_status_callback, IndexWebsocket.get_voice_calls,
    IndexJs.post_voice_incoming, IndexJs.post_voice_handle_input,
    IndexJs.post_voice_end_call, IndexJs.post_voice_status_callback,
    IndexJs.get_voice_calls,
    server_on_upgrade, wss_on_connection, ws_on_message, ws_on_error,
    ws_on_close, at_time.

Ltac unfold_agent :=
  unfold handleIncoming, endCall, registerMediaStream, closeMediaStream,
    getMediaStream, this_callSessions, this_mediaStreams,
    update_callSessions, update_mediaStreams, new_Date,
    console_log, console_error, emit.

Ltac unfold_monad := unfold exec, eval, bind, ret.

(** Both outcomes of building the input-received document. *)
Ltac built_or_thrown :=
  repeat match goal with
  | |- context [handle_input_twiml ?sr ?dg] =>
      destruct (handle_input_twiml sr dg); simpl
  end.

(** The greeting holds no character the builder refuses. *)
Ltac greet :=
  repeat match goal with
  | |- context [generateTwiML ?c None] =>
      change (generateTwiML c None)
        with (@inr exn VoiceResponse (prompt_twiml greeting))
  end.

Ltac js_unfold :=
  unfold_routes; unfold error_middleware; unfold_agent; unfold_monad;
  simpl; greet; simpl.

Ltac js := js_unfold; built_or_thrown.

Definition say_doc (t : string) : VoiceResponse :=
  [Say {| text := t; voice := Polly_Amy |}; Hangup].

(** Which of the three utterances a document opens with. *)
Definition opens_with (p : string) (doc : VoiceResponse) : bool :=
  match doc with
  | Say s :: _ =>
      match strip_prefix p (text s) with Some _ => true | None => false end
  | _ => false
  end.

Definition transcript_branch := opens_with "I understood: ".
Definition digits_branch := opens_with "You pressed: ".
Definition no_input_branch := opens_with "No input received. Goodbye!".

Definition is_hangup (v : verb) : bool :=
  match v with Hangup => true | _ => false end.

Definition absent_or_empty (f : field) : Prop :=
  f = None \/ f = Some EmptyString.

(** Both files answer the input-received request [b] with [r]. *)
Definition answered (b : body) (w : World) (r : response) : Prop :=
  eval (IndexWebsocket.post_voice_handle_input b) w = r
  /\ eval (IndexJs.post_voice_handle_input b) w = r.

(** The input-received request [b] is acknowledged with the utterance
    [t]: by the 200 document that says [t] and hangs up or, when [t]
    holds a character the builder refuses, by the 500 of the error
    middleware, with no document. *)
Definition acknowledged_with (t : string) (b : body) (w : World) : Prop :=
  (legal_text t = true -> answered b w (send_xml (say_doc t)))
  /\ (legal_text t = false ->
        answered b w (error_response (InvalidCharacter t))).

(** The same request without its transcript field. *)
Definition without_transcript (b : body) : body :=
  {| CallSid := CallSid b; From := From b; To := To b;
     SpeechResult := None; Digits := Digits b; CallStatus := CallStatus b |}.

(** The text with the given bytes. *)
Definition bytes (codes : list nat) : string :=
  fold_right (fun n s => String (Ascii.ascii_of_nat n) s) EmptyString codes.

(** The one-character text U+0001. *)
Definition control_char : string := String (Ascii.ascii_of_nat 1) EmptyString.

Definition body_control : body :=
  {| CallSid := Some "CA1"; From := None; To := None;
     SpeechResult := Some control_char; Digits := None; CallStatus := None |}.

Definition body_hello : body :=
  {| CallSid := Some "CA1"; From := None; To := None;
     SpeechResult := Some "hello"; Digits := None; CallStatus := None |}.

Definition body_empty_transcript : body :=
  {| CallSid := Some "CA1"; From := None; To := None;
     SpeechResult := Some EmptyString; Digits := Some "7";
     CallStatus := None |}.

Definition entry_of (id : field) (s : session) : call_entry :=
  {| callSid := id; entry_from := from s; entry_to := to s;
     entry_startTime := startTime s; entry_active := active s |}.

Definition calls_response (sessions : JsMap.t field session) : response :=
  {| status := 200; contentType := None;
     content := CallsJson (List.length (list_active sessions))
                          (list_active sessions) |}.

Definition body_of (id : string) (origin destination : string) : body :=
  {| CallSid := Some id; From := Some origin; To := Some destination;
     SpeechResult := None; Digits := None; CallStatus := None |}.

Definition CA1 : body := body_of "CA1" "+15551234567" "+15555678901".
Definition CA2 : body := body_of "CA2" "+15550000002" "+15555678901".

(** One call still going on, one ended. *)
Definition two_calls : World :=
  run (initial 0)
    [(1, PostIncoming CA1); (2, PostIncoming CA2); (3, PostEndCall CA1)]%Z.

Definition completed (b : body) : body :=
  {| CallSid := CallSid b; From := From b; To := To b;
     SpeechResult := None; Digits := None; CallStatus := Some "completed" |}.

(** The one event that marks the record of [k] inactive. *)
Definition ends_call (k : field) (e : event) : bool :=
  match e with
  | PostEndCall b => eqb_of (CallSid b) k
  | _ => false
  end.

Definition acknowledgment : response :=
  {| status := 200; contentType := None; content := NoBody |}.

Definition logged (line : string) (w : World) : World :=
  {| agent := agent w; clock := clock w;
     trace := trace w ++ [ConsoleLog line] |}.

Definition incoming_record (b : body) (now : Z) : session :=
  {| from := From b; to := To b; startTime := now; active := true |}.

(** The same call announced again, from another origin. *)
Definition CA1_again : body := body_of "CA1" "+15559999999" "+15555678901".

Definition ended_call : World :=
  run (initial 0) [(1, PostIncoming CA1); (2, PostEndCall CA1)]%Z.

Definition media (p : string) : message := Data (Some "media") (Some p).
Definition stop : message := Data (Some "stop") None.

(** A stream for CA1 on WebSocket 7 that has received one frame. *)
Definition streaming : World :=
  run (initial 0)
    [(1%Z, Upgrade "/media/CA1" 7); (2%Z, WsMessage "CA1" (media "AAAA"))].

Definition fresh_stream (ws : handle) (now : Z) : stream :=
  {| websocket := ws; streamStartTime := now; audioBuffer := [] |}.

(** The events that tear the stream of [id] down: the [stop] message and
    the close notification of a connection opened for [id], and the
    end-call request for [id]. *)
Definition is_teardown (id : string) (e : event) : bool :=
  match e with
  | WsMessage id' (Data ev _) => eqb_of id' id && eqb_of ev (Some "stop")
  | WsClosed id' => eqb_of id' id
  | PostEndCall b => eqb_of (CallSid b) (Some id)
  | _ => false
  end.

(** The handles on which [close()] was called, in order. *)
Definition closes (t : list effect) : list handle :=
  flat_map (fun e => match e with WsClose h => [h] | _ => [] end) t.

Definition closed_by_teardown (s : option stream) : list handle :=
  match s with
  | Some s => [websocket s]
  | None => []
  end.

Definition all_teardown (id : string) (tes : list (Z * event)) : bool :=
  forallb (fun te => is_teardown id (snd te)) tes.

(** What was written to the console, [console.log] and [console.error]
    alike. *)
Definition console (t : list effect) : list string :=
  flat_map (fun e => match e with
                     | ConsoleLog l | ConsoleError l => [l]
                     | _ => []
                     end) t.

(** The stream of CA1 torn down by its [stop] message. *)
Definition stopped : World := step streaming (3%Z, WsMessage "CA1" stop).

Definition connection_log (id : string) : effect :=
  ConsoleLog ("WebSocket connected for media stream: " ++ id).

(** The upgrade was accepted for [id]: the connection handler ran, the
    session is in the registry and the acknowledgment was sent. *)
Definition accepted_for (id : string) (socket : handle) (w w' : World) : Prop :=
  w' = exec (wss_on_connection socket id) w
  /\ JsMap.get (Some id) (mediaStreams (agent w'))
     = Some (fresh_stream socket (clock w))
  /\ trace w' = trace w ++ [connection_log id; WsSend socket (Connected id)].

(** The upgrade was rejected: the socket is destroyed and that is all. *)
Definition rejected (socket : handle) (w w' : World) : Prop :=
  agent w' = agent w /\ trace w' = trace w ++ [SocketDestroy socket].

(** A checker for the XML the documents are written in: an optional
    declaration, then one root element; elements with double-quoted
    attributes, empty-element tags, character data and the five
    predefined entity references.  It reads the text one character at a
    time, keeping the stack of open elements. *)
Module Xml.

Inductive mode :=
| Content
| EntityC (acc : string)
| TagStart
| Decl (q : bool)
| OpenName (n : string)
| InTag (n : string)
| AttrSpace (n : string)
| AttrName (n : string)
| AttrEq (n : string)
| AttrValue (n : string)
| EntityA (n : string) (acc : string)
| EmptyEnd (n : string)
| CloseName (acc : string).

Record state := {
  at_mode : mode;
  stack : list string;
  roots : nat
}.

Definition init : state := {| at_mode := Content; stack := []; roots := 0 |}.

Definition goto (m : mode) (st : state) : option state :=
  Some {| at_mode := m; stack := stack st; roots := roots st |}.

Definition snoc (s : string) (c : ascii) : string :=
  (s ++ String c EmptyString)%string.

Definition is_entity (name : string) : bool :=
  existsb (String.eqb name) ["amp"; "lt"; "gt"; "quot"; "apos"]%string.

Definition closed_root (stk : list string) : nat :=
  match stk with [] => 1 | _ => 0 end.

Definition in_tag (n : string) (c : ascii) (st : state) : option state :=
  if Ascii.eqb c " " then goto (AttrSpace n) st
  else if Ascii.eqb c "/" then goto (EmptyEnd n) st
  else if Ascii.eqb c ">" then
    Some {| at_mode := Content; stack := n :: stack st; roots := roots st |}
  else None.

Definition step (c : ascii) (st : state) : option state :=
  match at_mode st with
  | Content =>
      if Ascii.eqb c "<" then goto TagStart st
      else match stack st with
           | [] => None
           | _ :: _ =>
               if Ascii.eqb c "&" then goto (EntityC EmptyString) st
               else if Ascii.eqb c ">" then None
               else Some st
           end
  | EntityC acc =>
      if Ascii.eqb c ";" then
        if is_entity acc then goto Content st else None
      else if is_alnum c then goto (EntityC (snoc acc c)) st
      else None
  | TagStart =>
      if Ascii.eqb c "/" then goto (CloseName EmptyString) st
      else if Ascii.eqb c "?" then
        match stack st, roots st with
        | [], O => goto (Decl false) st
        | _, _ => None
        end
      else if is_alnum c then
        match stack st, roots st with
        | [], S _ => None
        | _, _ => goto (OpenName (String c EmptyString)) st
        end
      else None
  | Decl q =>
      if Ascii.eqb c "?" then goto (Decl true) st
      else if Ascii.eqb c ">" then
        if q then goto Content st else goto (Decl false) st
      else goto (Decl false) st
  | OpenName n =>
      if is_alnum c then goto (OpenName (snoc n c)) st else in_tag n c st
  | InTag n => in_tag n c st
  | AttrSpace n => if is_alnum c then goto (AttrName n) st else None
  | AttrName n =>
      if is_alnum c then Some st
      else if Ascii.eqb c "=" then goto (AttrEq n) st
      else None
  | AttrEq n => if Ascii.eqb c dquote then goto (AttrValue n) st else None
  | AttrValue n =>
      if Ascii.eqb c dquote then goto (InTag n) st
      else if Ascii.eqb c "<" then None
      else if Ascii.eqb c "&" then goto (EntityA n EmptyString) st
      else Some st
  | EntityA n acc =>
      if Ascii.eqb c ";" then
        if is_entity acc then goto (AttrValue n) st else None
      else if is_alnum c then goto (EntityA n (snoc acc c)) st
      else None
  | EmptyEnd n =>
      if Ascii.eqb c ">" then
        Some {| at_mode := Content; stack := stack st;
                roots := roots st + closed_root (stack st) |}
      else None
  | CloseName acc =>
      if is_alnum c then goto (CloseName (snoc acc c)) st
      else if Ascii.eqb c ">" then
        match stack st with
        | top :: rest =>
            if String.eqb acc top then
              Some {| at_mode := Content; stack := rest;
                      roots := roots st + closed_root rest |}
            else None
        | [] => None
        end
      else None
  end.

Fixpoint run (s : string) (st : state) : option state :=
  match s with
  | EmptyString => Some st
  | String c s' =>
      match step c st with
      | Some st' => run s' st'
      | None => None
      end
  end.

Definition accepting (st : state) : bool :=
  match at_mode st, stack st, roots st with
  | Content, [], 1 => true
  | _, _, _ => false
  end.

(** Well-formed: every character is one XML 1.0 allows, and the markup
    is accepted.  (Character data is accepted only with [>] escaped,
    which asks more than XML does.) *)
Definition well_formed (s : string) : bool :=
  legal_text s &&
  match run s init with
  | Some st => accepting st
  | None => false
  end.

(** Reading character data back: entity references decoded. *)
Definition entity_char (name : string) : option ascii :=
  if String.eqb name "amp" then Some "&"%char
  else if String.eqb name "lt" then Some "<"%char
  else if String.eqb name "gt" then Some ">"%char
  else if String.eqb name "quot" then Some dquote
  else if String.eqb name "apos" then Some "'"%char
  else None.

Fixpoint decode_from (pending : option string) (s : string) : option string :=
  match s with
  | EmptyString =>
      match pending with None => Some EmptyString | Some _ => None end
  | String c s' =>
      match pending with
      | None =>
          if Ascii.eqb c "&" then decode_from (Some EmptyString) s'
          else option_map (String c) (decode_from None s')
      | Some acc =>
          if Ascii.eqb c ";" then
            match entity_char acc with
            | Some ch => option_map (String ch) (decode_from None s')
            | None => None
            end
          else decode_from (Some (snoc acc c)) s'
      end
  end.

Definition decode : string -> option string := decode_from None.

(** No markup character stands for itself. *)
Fixpoint no_raw_markup (s : string) : bool :=
  match s with
  | EmptyString => true
  | String c s' =>
      negb (Ascii.eqb c "<") && negb (Ascii.eqb c ">")
      && negb (Ascii.eqb c dquote) && negb (Ascii.eqb c "'")
      && no_raw_markup s'
  end.

End Xml.

Definition quote_mark : string := String dquote EmptyString.

Definition say_open : string :=
  prolog ++ "<Response><Say voice=" ++ quote_mark ++ "Polly.Amy"
    ++ quote_mark ++ ">".

Definition say_close : string := "</Say><Hangup/></Response>".

Definition inside (top : string) (rest : list string) (r : nat) : Xml.state :=
  {| Xml.at_mode := Xml.Content; Xml.stack := top :: rest; Xml.roots := r |}.

Definition body_markup : body :=
  {| CallSid := Some "CA1"; From := None; To := None;
     SpeechResult := Some "</Say><Dial>+15550000000</Dial> & more";
     Digits := None; CallStatus := None |}.

(** * Further vocabulary: histories, listings, traces *)

(** ** A call's record as its own history tells it

    What the events of a history say about the record of [id], looking
    only at the incoming-call and end-call requests for [id]. *)
Definition record_step (id : field) (r : option session) (te : Z * event)
  : option session :=
  match snd te with
  | PostIncoming b =>
      if eqb_of (CallSid b) id then Some (incoming_record b (fst te)) else r
  | PostEndCall b =>
      if eqb_of (CallSid b) id then option_map deactivate r else r
  | _ => r
  end.

Definition record_after (id : field) (r : option session)
    (tes : list (Z * event)) : option session :=
  fold_left (record_step id) tes r.

(** The same for the stream session of [id]: accepted upgrades, messages
    and close notifications of connections opened for [id], and end-call
    requests for [id]. *)
Definition session_step (id : string) (s : option stream) (te : Z * event)
  : option stream :=
  match snd te with
  | Upgrade url socket =>
      match match_media url with
      | Some id' =>
          if eqb_of id' id then Some (fresh_stream socket (fst te)) else s
      | None => s
      end
  | WsMessage id' (Data ev p) =>
      if eqb_of id' id then
        if eqb_of ev (Some "start") then s
        else if eqb_of ev (Some "media") then
          option_map (fun x => push x p) s
        else if eqb_of ev (Some "stop") then None
        else s
      else s
  | WsClosed id' => if eqb_of id' id then None else s
  | PostEndCall b => if eqb_of (CallSid b) (Some id) then None else s
  | _ => s
  end.

Definition session_after (id : string) (s : option stream)
    (tes : list (Z * event)) : option stream :=
  fold_left (session_step id) tes s.

(** The payloads of the media frames a history carries for [id]. *)
Definition frames_for (id : string) (tes : list (Z * event)) : list field :=
  flat_map (fun te : Z * event =>
              match snd te with
              | WsMessage id' (Data ev p) =>
                  if eqb_of id' id && eqb_of ev (Some "media") then [p]
                  else []
              | _ => []
              end) tes.

(** The events that end or replace the session of [id]. *)
Definition disturbs (id : string) (e : event) : bool :=
  is_teardown id e
  || match e with
     | Upgrade url _ =>
         match match_media url with
         | Some id' => eqb_of id' id
         | None => false
         end
     | _ => false
     end.

Definition undisturbed (id : string) (tes : list (Z * event)) : bool :=
  forallb (fun te => negb (disturbs id (snd te))) tes.

(** ** Listings *)

Definition about (id : field) (e : call_entry) : bool := eqb_of (callSid e) id.

Definition not_about (id : field) (e : call_entry) : bool := negb (about id e).

Definition keys {V} (m : JsMap.t field V) : list field := map fst m.

(** ** Traces: [close()] only on sockets acknowledged before

    Reads a trace from its start, remembering the sockets on which the
    [connected] acknowledgment was sent. *)
Fixpoint closes_acked (seen : list handle) (t : list effect) : bool :=
  match t with
  | [] => true
  | WsSend h _ :: t' => closes_acked (h :: seen) t'
  | WsClose h :: t' => existsb (Nat.eqb h) seen && closes_acked seen t'
  | _ :: t' => closes_acked seen t'
  end.

(** The sockets acknowledged in a trace, latest first. *)
Fixpoint acked (t : list effect) : list handle :=
  match t with
  | [] => []
  | WsSend h _ :: t' => acked t' ++ [h]
  | _ :: t' => acked t'
  end.

Definition sockets (m : JsMap.t field stream) : list handle :=
  map (fun e : field * stream => websocket (snd e)) m.

(** ** The event loop of [index.js]: HTTP requests only *)

Inductive request :=
| ReqIncoming (b : body)
| ReqHandleInput (b : body)
| ReqEndCall (b : body)
| ReqStatusCallback (b : body)
| ReqCalls.

Definition as_request (e : event) : option request :=
  match e with
  | PostIncoming b => Some (ReqIncoming b)
  | PostHandleInput b => Some (ReqHandleInput b)
  | PostEndCall b => Some (ReqEndCall b)
  | PostStatusCallback b => Some (ReqStatusCallback b)
  | GetCalls => Some ReqCalls
  | _ => None
  end.

Fixpoint requests_of (tes : list (Z * event)) : list (Z * request) :=
  match tes with
  | [] => []
  | (t, e) :: tes' =>
      match as_request e with
      | Some r => (t, r) :: requests_of tes'
      | None => requests_of tes'
      end
  end.

Definition IndexJs_handle (r : request) : M response :=
  match r with
  | ReqIncoming b => IndexJs.post_voice_incoming b
  | ReqHandleInput b => IndexJs.post_voice_handle_input b
  | ReqEndCall b => IndexJs.post_voice_end_call b
  | ReqStatusCallback b => IndexJs.post_voice_status_callback b
  | ReqCalls => IndexJs.get_voice_calls
  end.

Definition IndexJs_step (w : World) (tr : Z * request) : World :=
  exec (at_time (fst tr) ;; IndexJs_handle (snd tr)) w.

Definition IndexJs_respond (w : World) (tr : Z * request) : response :=
  eval (at_time (fst tr) ;; IndexJs_handle (snd tr)) w.

Fixpoint IndexJs_responses (w : World) (trs : list (Z * request))
  : list response :=
  match trs with
  | [] => []
  | tr :: trs' => IndexJs_respond w tr :: IndexJs_responses (IndexJs_step w tr) trs'
  end.

Definition IndexJs_run (w : World) (trs : list (Z * request)) : World :=
  fold_left IndexJs_step trs w.

(** What [index-websocket.js] answers to the requests of a history. *)
Definition respond (w : World) (te : Z * event) : option response :=
  eval (at_time (fst te) ;; handle_event (snd te)) w.

Fixpoint responses (w : World) (tes : list (Z * event)) : list response :=
  match tes with
  | [] => []
  | te :: tes' =>
      match respond w te with
      | Some r => r :: responses (step w te) tes'
      | None => responses (step w te) tes'
      end
  end.

(** A session with more payloads at the end of its buffer. *)
Definition extend (s : stream) (ps : list field) : stream :=
  {| websocket := websocket s; streamStartTime := streamStartTime s;
     audioBuffer := audioBuffer s ++ ps |}.

(** The call store after [endCall(k)]. *)
Definition end_sessions (k : field) (m : JsMap.t field session)
  : JsMap.t field session :=
  match JsMap.get k m with
  | Some s => JsMap.set k (deactivate s) m
  | None => m
  end.

Definition end_call_line (b : body) : string :=
  "Ending call - CallSid: " ++ show (CallSid b).

(** An incoming-call request of the history announced [k]. *)
Definition announced (k : field) (tes : list (Z * event)) : Prop :=
  exists t b, In (t, PostIncoming b) tes /\ CallSid b = k.

(** The agent only holds, and has only closed, sockets it acknowledged. *)
Definition accepted_only (w : World) : Prop :=
  closes_acked [] (trace w) = true
  /\ forall h, In h (sockets (mediaStreams (agent w))) -> In h (acked (trace w)).

(** * The media-stream webhook *)

(** [s.replace(pat, rep)] with a string pattern: the first occurrence of
    [pat], if there is one, is replaced ([rep] holds no [$]). *)
Fixpoint replace_first (pat rep s : string) : string :=
  match strip_prefix pat s with
  | Some rest => rep ++ rest
  | None =>
      match s with
      | EmptyString => EmptyString
      | String c s' => String c (replace_first pat rep s')
      end
  end.

Definition contains (pat s : string) : Prop :=
  exists pre post, s = (pre ++ pat ++ post)%string.

(** The document of [twiml.start().stream({ url })]. *)
Inductive stream_doc :=
| StartStream (url : string).

(** What [/voice/media-stream] puts on [res], or what the error
    middleware answers after a throw. *)
Inductive reply :=
| StreamXml (status : nat) (contentType : option string) (doc : stream_doc)
| Thrown (r : response).

Definition stream_url (base : string) (id : field) : string :=
  replace_first "http" "ws" base ++ "/media/" ++ show id.

(** [twiml.start().stream({ url })]: the builder refuses an attribute
    value as it refuses text. *)
Definition start_stream (url : string) : exn + stream_doc :=
  if legal_text url then inr (StartStream url)
  else inl (InvalidCharacter url).

(** The route handler; [inl] is what it throws: the [TypeError] of
    reading [.replace] of [undefined], or the error of the builder.
    [DEPLOYMENT_URL] is [process.env.DEPLOYMENT_URL]. *)
Definition media_stream_handler (DEPLOYMENT_URL : field) (b : body)
  : M (exn + reply) :=
  console_log ("Media stream request - CallSid: " ++ show (CallSid b)) ;;
  match DEPLOYMENT_URL with
  | None => ret (inl UndefinedReplace)
  | Some base =>
      let wssUrl := stream_url base (CallSid b) in
      match start_stream wssUrl with
      | inl err => ret (inl err)
      | inr twiml => ret (inr (StreamXml 200 (Some "text/xml") twiml))
      end
  end.

(** The route as the framework runs it: what the handler throws goes to
    the error middleware. *)
Definition post_voice_media_stream (DEPLOYMENT_URL : field) (b : body)
  : M reply :=
  r <- media_stream_handler DEPLOYMENT_URL b ;;
  match r with
  | inl err => r' <- error_middleware err ;; ret (Thrown r')
  | inr sent => ret sent
  end.

Definition media_stream_line (b : body) : string :=
  "Media stream request - CallSid: " ++ show (CallSid b).

(** * class AIModelManager *)

Module AI.
Section Manager.

(** JSON numbers, and which of them JavaScript holds true (all but zero). *)
Variable number : Type.
Variable nonzero : number -> bool.

(** A value [response.json()] resolves to. *)
#[warnings="-register-all"]
Inductive json :=
| JNull
| JBool (b : bool)
| JNum (n : number)
| JStr (s : string)
| JArr (items : list json)
| JObj (members : list (string * json)).

Fixpoint lookup (key : string) (members : list (string * json))
  : option json :=
  match members with
  | [] => None
  | (k, v) :: rest => if String.eqb key k then Some v else lookup key rest
  end.

(** [v.key] for one of the keys read here ([choices], [message],
    [content], [text]): only an object can have it; [None] is
    [undefined]. *)
Definition member (key : string) (v : json) : option json :=
  match v with
  | JObj members => lookup key members
  | _ => None
  end.

(** [v[0]] *)
Definition at0 (v : json) : option json :=
  match v with
  | JArr (x :: _) => Some x
  | JStr (String c _) => Some (JStr (String c EmptyString))
  | JObj members => lookup "0" members
  | _ => None
  end.

(** The step [v?.] of an optional chain: [None] when [v] is [undefined]
    or [null]. *)
Definition defined (v : option json) : option json :=
  match v with
  | Some JNull => None
  | _ => v
  end.

Definition truthy_value (v : option json) : bool :=
  match v with
  | None => false
  | Some JNull => false
  | Some (JBool b) => b
  | Some (JNum n) => nonzero n
  | Some (JStr EmptyString) => false
  | Some _ => true
  end.

(** [v || null] *)
Definition or_null (v : option json) : json :=
  match v with
  | Some x => if truthy_value v then x else JNull
  | None => JNull
  end.

(** [data.choices?.[0]?.message?.content], for [data] other than [null]. *)
Definition completion (data : json) : option json :=
  match defined (member "choices" data) with
  | None => None
  | Some choices =>
      match defined (at0 choices) with
      | None => None
      | Some first =>
          match defined (member "message" first) with
          | None => None
          | Some message => member "content" message
          end
      end
  end.

(** [process.env.X || d] *)
Definition or_default (f : field) (d : string) : string :=
  if truthy f then show f else d.

Record config := {
  groq_apiKey : field;
  groq_model : string;
  cartesia_apiKey : field;
  cartesia_model : string;
  cartesia_voiceId : string;
  inkWhisper_apiKey : field;
  inkWhisper_model : string
}.

(** The [config] object, read from the environment. *)
Definition read_config
    (GROQ_API_KEY GROQ_MODEL CARTESIA_API_KEY CARTESIA_VOICE_MODEL
     CARTESIA_VOICE_ID INK_WHISPER_API_KEY INK_WHISPER_MODEL : field)
  : config :=
  {| groq_apiKey := GROQ_API_KEY;
     groq_model := or_default GROQ_MODEL "kimi-k2-0905";
     cartesia_apiKey := CARTESIA_API_KEY;
     cartesia_model := or_default CARTESIA_VOICE_MODEL "sonic-ultra";
     cartesia_voiceId := or_default CARTESIA_VOICE_ID "default";
     inkWhisper_apiKey := INK_WHISPER_API_KEY;
     inkWhisper_model := or_default INK_WHISPER_MODEL "ink-whisper-pro" |}.

(** The three requests the manager can send. *)
Inductive call :=
| Completions (authorization model content : string)
| Synthesize (authorization text model voice_id : string)
| Transcribe (authorization audio model : string).

Definition endpoint (c : call) : string :=
  match c with
  | Completions _ _ _ => "https://api.groq.com/openai/v1/chat/completions"
  | Synthesize _ _ _ _ => "https://api.cartesia.ai/v1/voices/synthesize"
  | Transcribe _ _ _ => "https://api.inkwhisper.ai/v1/transcribe"
  end.

(** How [await fetch(...)] ends: it rejects, or it resolves to a response
    whose [json()] resolves to a value or rejects ([None]). *)
Inductive outcome :=
| Rejects
| Resolves (body : option json).

Inductive did :=
| Warn (line : string)
| Error (line : string)
| Fetch (c : call).

Definition bearer (key : field) : string := "Bearer " ++ show key.

Definition generateWithKimi (cfg : config) (net : call -> outcome)
    (userInput : string) : list did * json :=
  if negb (truthy (groq_apiKey cfg)) then
    ([Warn "Groq API key not configured"], JNull)
  else
    let c := Completions (bearer (groq_apiKey cfg)) (groq_model cfg)
               userInput in
    match net c with
    | Resolves (Some JNull) | Resolves None | Rejects =>
        ([Fetch c; Error "Groq Kimi error:"], JNull)
    | Resolves (Some data) => ([Fetch c], or_null (completion data))
    end.

(** The result is the response itself ([Some]), or [null]. *)
Definition synthesizeWithSonic3 (cfg : config) (net : call -> outcome)
    (text : string) : list did * option (option json) :=
  if negb (truthy (cartesia_apiKey cfg)) then
    ([Warn "Cartesia API key not configured"], None)
  else
    let c := Synthesize (bearer (cartesia_apiKey cfg)) text
               (cartesia_model cfg) (cartesia_voiceId cfg) in
    match net c with
    | Rejects => ([Fetch c; Error "Cartesia Sonic 3 error:"], None)
    | Resolves body => ([Fetch c], Some body)
    end.

Definition transcribeWithInkWhisper (cfg : config) (net : call -> outcome)
    (audioData : string) : list did * json :=
  if negb (truthy (inkWhisper_apiKey cfg)) then
    ([Warn "Ink Whisper API key not configured"], JNull)
  else
    let c := Transcribe (bearer (inkWhisper_apiKey cfg)) audioData
               (inkWhisper_model cfg) in
    match net c with
    | Resolves (Some JNull) | Resolves None | Rejects =>
        ([Fetch c; Error "Ink Whisper error:"], JNull)
    | Resolves (Some data) => ([Fetch c], or_null (member "text" data))
    end.

(** The requests among what was done. *)
Definition fetches (l : list did) : list call :=
  flat_map (fun d => match d with Fetch c => [c] | _ => [] end) l.

Definition is_null (v : json) : bool :=
  match v with JNull => true | _ => false end.

End Manager.

Arguments JNull {number}.
Arguments JBool {number} b.
Arguments JNum {number} n.
Arguments JStr {number} s.
Arguments JArr {number} items.
Arguments JObj {number} members.
Arguments Rejects {number}.
Arguments Resolves {number} body.
Arguments lookup {number} key members.
Arguments member {number} key v.
Arguments at0 {number} v.
Arguments defined {number} v.
Arguments completion {number} data.
Arguments truthy_value {number} nonzero v.
Arguments or_null {number} nonzero v.
Arguments is_null {number} v.
Arguments generateWithKimi {number} nonzero cfg net userInput.
Arguments synthesizeWithSonic3 {number} cfg net text.
Arguments transcribeWithInkWhisper {number} nonzero cfg net audioData.

End AI.

(** A network on which every request fails, and one that answers every
    request with a completion of "Hi". *)
Definition offline (c : AI.call) : AI.outcome nat := AI.Rejects.

Definition answers_hi (c : AI.call) : AI.outcome nat :=
  AI.Resolves (Some (AI.JObj
    [("id"%string, AI.JStr "cmpl-1");
     ("choices"%string,
      AI.JArr [AI.JObj [("index"%string, AI.JNum 0);
                        ("message"%string,
                         AI.JObj [("role"%string, AI.JStr "assistant");
                                  ("content"%string, AI.JStr "Hi")])]])])).

Definition nat_nonzero (n : nat) : bool := negb (Nat.eqb n 0).

Definition no_keys : AI.config :=
  AI.read_config None None (Some EmptyString) None None None None.

Definition groq_only : AI.config :=
  AI.read_config (Some "gsk") None None None None None None.

(** * Where a document sends the call next *)

(** The webhooks a document hands the call on to: the action of a gather
    and the target of a redirect. *)
Definition targets (doc : VoiceResponse) : list string :=
  flat_map (fun v => match v with
                     | Gather a _ => [action a]
                     | Redirect url => [url]
                     | _ => []
                     end) doc.

Definition hangs_up (doc : VoiceResponse) : bool := existsb is_hangup doc.

(** A call identifier that holds the control character U+0001. *)
Definition body_control_id : body :=
  {| CallSid := Some ("CA" ++ control_char)%string; From := None; To := None;
     SpeechResult := None; Digits := None; CallStatus := None |}.

(** * Theorems *)

Lemma eqb_of_refl {A} `{EqDec A} (x : A) : eqb_of x x = true.
Proof. unfold eqb_of. destruct (eq_dec x x); congruence. Qed.

Lemma eqb_of_neq {A} `{EqDec A} (x y : A) : x <> y -> eqb_of x y = false.
Proof. unfold eqb_of. destruct (eq_dec x y); congruence. Qed.

Lemma eqb_of_true {A} `{EqDec A} (x y : A) : eqb_of x y = true -> x = y.
Proof. unfold eqb_of. destruct (eq_dec x y); congruence. Qed.

(** ** Facts about the JavaScript [Map] *)

Module JsMapFacts.
Import JsMap.
Section Lemmas.
Context {K V : Type} `{EqDec K}.
Implicit Types (k : K) (v : V) (m : JsMap.t K V).

Lemma get_set_eq k v m : get k (set k v m) = Some v.
Proof.
  induction m as [|[k' v'] m IH]; simpl.
  - now rewrite eqb_of_refl.
  - destruct (eqb_of k k') eqn:E; simpl.
    + now rewrite eqb_of_refl.
    + now rewrite E.
Qed.

Lemma get_set_neq k k' v m : k <> k' -> get k' (set k v m) = get k' m.
Proof.
  intros Hne. induction m as [|[k0 v0] m IH]; simpl.
  - rewrite eqb_of_neq; congruence.
  - destruct (eqb_of k k0) eqn:E; simpl.
    + apply eqb_of_true in E. subst k0.
      rewrite !eqb_of_neq; congruence.
    + destruct (eqb_of k' k0); auto.
Qed.

Lemma has_set_eq k v m : has k (set k v m) = true.
Proof. unfold has. now rewrite get_set_eq. Qed.

Lemma has_set_neq k k' v m : k <> k' -> has k' (set k v m) = has k' m.
Proof. intros. unfold has. now rewrite get_set_neq. Qed.

Lemma has_set_mono k k' v m : has k' m = true -> has k' (set k v m) = true.
Proof.
  intros Hh. destruct (eq_dec k k') as [->|Hne].
  - apply has_set_eq.
  - now rewrite has_set_neq.
Qed.

Lemma get_delete_neq k k' m : k <> k' -> get k' (delete k m) = get k' m.
Proof.
  intros Hne. induction m as [|[k0 v0] m IH]; simpl; auto.
  destruct (eqb_of k k0) eqn:E; simpl.
  - apply eqb_of_true in E. subst k0. rewrite eqb_of_neq; congruence.
  - destruct (eqb_of k' k0); auto.
Qed.

Lemma get_delete_eq k m : wf m = true -> get k (delete k m) = None.
Proof.
  induction m as [|[k0 v0] m IH]; simpl; auto.
  intros Hwf. apply andb_true_iff in Hwf as [Hno Hwf].
  destruct (eqb_of k k0) eqn:E; simpl.
  - apply eqb_of_true in E. subst k0.
    unfold has in Hno. destruct (get k m); [discriminate|reflexivity].
  - rewrite E. auto.
Qed.

Lemma delete_absent k m : get k m = None -> delete k m = m.
Proof.
  induction m as [|[k0 v0] m IH]; simpl; auto.
  destruct (eqb_of k k0); [discriminate|].
  intros Hg. now rewrite IH.
Qed.

Lemma has_delete_neq k k' m : k <> k' -> has k' (delete k m) = has k' m.
Proof. intros. unfold has. now rewrite get_delete_neq. Qed.

Lemma has_delete_false k k' m : has k' m = false -> has k' (delete k m) = false.
Proof.
  intros Hh. destruct (eq_dec k k') as [->|Hne].
  - unfold has in *. destruct (get k' m) eqn:E; [discriminate|].
    now rewrite delete_absent, E.
  - now rewrite has_delete_neq.
Qed.

Lemma wf_set k v m : wf m = true -> wf (set k v m) = true.
Proof.
  induction m as [|[k0 v0] m IH]; simpl; auto.
  intros Hwf. apply andb_true_iff in Hwf as [Hno Hwf].
  destruct (eqb_of k k0) eqn:E; simpl.
  - apply eqb_of_true in E. subst k0. now rewrite Hno, Hwf.
  - rewrite IH by assumption. rewrite has_set_neq.
    + now rewrite Hno.
    + intros ->. now rewrite eqb_of_refl in E.
Qed.

Lemma wf_delete k m : wf m = true -> wf (delete k m) = true.
Proof.
  induction m as [|[k0 v0] m IH]; simpl; auto.
  intros Hwf. apply andb_true_iff in Hwf as [Hno Hwf].
  destruct (eqb_of k k0) eqn:E; simpl; auto.
  rewrite IH by assumption. rewrite has_delete_false; auto.
  now destruct (has k0 m).
Qed.

Lemma count_absent k m : has k m = false -> count k m = 0.
Proof.
  unfold count, has.
  induction m as [|[k0 v0] m IH]; simpl; auto.
  destruct (eqb_of k k0); simpl; [discriminate|auto].
Qed.

(** After [set], a well-formed map holds exactly one entry for the key. *)
Lemma count_set k v m : wf m = true -> count k (set k v m) = 1.
Proof.
  unfold count.
  induction m as [|[k0 v0] m IH]; simpl.
  - now rewrite eqb_of_refl.
  - intros Hwf. apply andb_true_iff in Hwf as [Hno Hwf].
    destruct (eqb_of k k0) eqn:E; simpl.
    + rewrite eqb_of_refl. simpl. f_equal.
      apply eqb_of_true in E. subst k0.
      apply count_absent. now destruct (has k m).
    + rewrite E. auto.
Qed.

Lemma get_In k v m : get k m = Some v -> In (k, v) (entries m).
Proof.
  unfold entries.
  induction m as [|[k0 v0] m IH]; simpl; [discriminate|].
  destruct (eqb_of k k0) eqn:E.
  - apply eqb_of_true in E. subst k0. intros [= ->]. now left.
  - intros Hg. right. auto.
Qed.

Lemma In_get k v m : wf m = true -> In (k, v) (entries m) -> get k m = Some v.
Proof.
  unfold entries.
  induction m as [|[k0 v0] m IH]; simpl; [tauto|].
  intros Hwf. apply andb_true_iff in Hwf as [Hno Hwf].
  intros [[= -> ->]|Hin].
  - now rewrite eqb_of_refl.
  - destruct (eqb_of k k0) eqn:E; auto.
    apply eqb_of_true in E. subst k0.
    apply IH in Hin; auto. unfold has in Hno. rewrite Hin in Hno. discriminate.
Qed.
End Lemmas.
End JsMapFacts.

(** ** The maps of every reachable state hold one entry per key *)

Lemma wf_agent_split a :
  wf_agent a = true <->
  JsMap.wf (callSessions a) = true /\ JsMap.wf (mediaStreams a) = true.
Proof. unfold wf_agent. apply andb_true_iff. Qed.

Lemma endCall_wf callSid w :
  wf_agent (agent w) = true -> wf_agent (agent (exec (endCall callSid) w)) = true.
Proof.
  intros Hwf. apply wf_agent_split in Hwf as [Hc Hm].
  js. destruct (JsMap.has callSid (callSessions (agent w))); simpl.
  - destruct (JsMap.get callSid (callSessions (agent w))); simpl;
      apply wf_agent_split; simpl; auto using JsMapFacts.wf_set.
  - apply wf_agent_split; auto.
Qed.

Lemma closeMediaStream_wf callSid w :
  wf_agent (agent w) = true ->
  wf_agent (agent (exec (closeMediaStream callSid) w)) = true.
Proof.
  intros Hwf. apply wf_agent_split in Hwf as [Hc Hm].
  js. destruct (JsMap.get callSid (mediaStreams (agent w))); simpl;
    apply wf_agent_split; simpl; auto using JsMapFacts.wf_delete.
Qed.

Lemma step_wf w te :
  wf_agent (agent w) = true -> wf_agent (agent (step w te)) = true.
Proof.
  intros Hwf. destruct te as [now e].
  pose proof Hwf as Hwf'. apply wf_agent_split in Hwf' as [Hc Hm].
  destruct e as [b|b|b|b| |url socket|callSid m|callSid|callSid].
  - js. apply wf_agent_split; simpl; auto using JsMapFacts.wf_set.
  - js; assumption.
  - js. destruct (JsMap.has (CallSid b) (callSessions (agent w))); simpl.
    + destruct (JsMap.get (CallSid b) (callSessions (agent w))); simpl;
        destruct (JsMap.get (CallSid b) (mediaStreams (agent w))); simpl;
        apply wf_agent_split; simpl;
        auto using JsMapFacts.wf_set, JsMapFacts.wf_delete.
    + destruct (JsMap.get (CallSid b) (mediaStreams (agent w))); simpl;
        apply wf_agent_split; simpl; auto using JsMapFacts.wf_delete.
  - js; assumption.
  - js; assumption.
  - js. destruct (match_media url); simpl.
    + apply wf_agent_split; simpl; auto using JsMapFacts.wf_set.
    + assumption.
  - js. destruct m as [|event audioData]; simpl; [assumption|].
    destruct (eqb_of event (Some "start")); simpl; [assumption|].
    destruct (eqb_of event (Some "media")); simpl.
    + destruct (JsMap.get (Some callSid) (mediaStreams (agent w))); simpl.
      * apply wf_agent_split; simpl; auto using JsMapFacts.wf_set.
      * assumption.
    + destruct (eqb_of event (Some "stop")); simpl; [|assumption].
      destruct (JsMap.get (Some callSid) (mediaStreams (agent w))); simpl;
        apply wf_agent_split; simpl; auto using JsMapFacts.wf_delete.
  - js; assumption.
  - js. destruct (JsMap.get (Some callSid) (mediaStreams (agent w))); simpl;
      apply wf_agent_split; simpl; auto using JsMapFacts.wf_delete.
Qed.

Lemma run_wf tes : forall w,
  wf_agent (agent w) = true -> wf_agent (agent (run w tes)) = true.
Proof.
  induction tes as [|te tes IH]; intros w Hwf; simpl; auto.
  apply IH. now apply step_wf.
Qed.

(** Every state the server can be in is reached from a fresh agent. *)
Lemma reachable_wf now tes : wf_agent (agent (run (initial now) tes)) = true.
Proof. apply run_wf. reflexivity. Qed.

(** ** Characters the builder refuses *)

Lemma scan_app a : forall b st,
  scan (a ++ b) st
  = match scan a st with
    | Some st' => scan b st'
    | None => None
    end.
Proof.
  induction a as [|c a IH]; intros b st; simpl; auto.
  destruct (forbidden_byte c || completes c st); auto.
Qed.

(** The texts and attribute values written in the program itself are
    ones the builder accepts: only text that comes with a request can
    make it throw. *)
Lemma constant_texts_are_legal :
  legal_text greeting = true
  /\ legal_text "Please say something or press a key." = true
  /\ legal_text "No input received. Goodbye!" = true
  /\ legal_text "Thank you for calling. Goodbye!" = true
  /\ legal_text Polly_Amy = true
  /\ legal_text "/voice/handle-input" = true
  /\ legal_text "/voice/end-call" = true
  /\ legal_text "POST" = true
  /\ legal_text "auto" = true.
Proof. vm_compute. repeat split. Qed.

(** Tab, line feed and carriage return are accepted, the other control
    characters are not; of the characters of several bytes, U+FFFE,
    U+FFFF and the surrogates (U+D800 to U+DFFF) are refused, their
    neighbours U+FFFD, U+D7FF and U+E000 are not. *)
Lemma legal_text_examples :
  legal_text (bytes [9; 10; 13]) = true
  /\ legal_text (bytes [0]) = false
  /\ legal_text (bytes [104; 105; 8]) = false
  /\ legal_text (bytes [11]) = false
  /\ legal_text (bytes [31]) = false
  /\ legal_text (bytes [195; 169]) = true
  /\ legal_text (bytes [239; 191; 189]) = true
  /\ legal_text (bytes [239; 191; 190]) = false
  /\ legal_text (bytes [239; 191; 191]) = false
  /\ legal_text (bytes [237; 159; 191]) = true
  /\ legal_text (bytes [237; 160; 128]) = false
  /\ legal_text (bytes [237; 191; 191]) = false
  /\ legal_text (bytes [238; 128; 128]) = true.
Proof. vm_compute. repeat split. Qed.

(** The words put before the input are plain. *)
Lemma legal_understood s :
  legal_text ("I understood: " ++ s) = legal_text s.
Proof.
  unfold legal_text. rewrite scan_app.
  change (scan "I understood: " Plain) with (Some Plain). reflexivity.
Qed.

Lemma legal_pressed d :
  legal_text ("You pressed: " ++ d) = legal_text d.
Proof.
  unfold legal_text. rewrite scan_app.
  change (scan "You pressed: " Plain) with (Some Plain). reflexivity.
Qed.

(** ** The input-received webhook *)

Lemma truthy_nonempty s : s <> EmptyString -> truthy (Some s) = true.
Proof. destruct s; [congruence|reflexivity]. Qed.

Lemma falsy_absent_or_empty f : absent_or_empty f -> truthy f = false.
Proof. intros [->| ->]; reflexivity. Qed.

(** The utterance is said and the call hung up, or the builder throws. *)
Lemma twiml_say_hangup t :
  match twiml_say t Polly_Amy [] with
  | inl e => inl e
  | inr twiml => inr (twiml ++ [Hangup])
  end
  = if legal_text t then inr (say_doc t) else inl (InvalidCharacter t).
Proof. unfold twiml_say. destruct (legal_text t); reflexivity. Qed.

Lemma handle_input_transcript s dg :
  s <> EmptyString ->
  handle_input_twiml (Some s) dg
  = if legal_text ("I understood: " ++ s)
    then inr (say_doc ("I understood: " ++ s))
    else inl (InvalidCharacter ("I understood: " ++ s)).
Proof.
  intros Hne. unfold handle_input_twiml.
  rewrite (truthy_nonempty _ Hne). apply twiml_say_hangup.
Qed.

Lemma handle_input_digits sr d :
  absent_or_empty sr -> d <> EmptyString ->
  handle_input_twiml sr (Some d)
  = if legal_text ("You pressed: " ++ d)
    then inr (say_doc ("You pressed: " ++ d))
    else inl (InvalidCharacter ("You pressed: " ++ d)).
Proof.
  intros Ha Hne. unfold handle_input_twiml.
  rewrite (falsy_absent_or_empty _ Ha), (truthy_nonempty _ Hne).
  apply twiml_say_hangup.
Qed.

Lemma handle_input_nothing sr dg :
  absent_or_empty sr -> absent_or_empty dg ->
  handle_input_twiml sr dg = inr (say_doc "No input received. Goodbye!").
Proof.
  intros Ha Hd. unfold handle_input_twiml.
  now rewrite (falsy_absent_or_empty _ Ha), (falsy_absent_or_empty _ Hd).
Qed.

(** A field is absent or empty, or it holds a non-empty text. *)
Lemma field_cases (f : field) :
  absent_or_empty f \/ exists s, f = Some s /\ s <> EmptyString.
Proof.
  destruct f as [[|c s]|].
  - left. now right.
  - right. exists (String c s). split; [reflexivity|discriminate].
  - left. now left.
Qed.

(** The handler sends the document it built, or the error middleware
    answers for it. *)
Lemma handle_input_built b w doc :
  handle_input_twiml (SpeechResult b) (Digits b) = inr doc ->
  answered b w (send_xml doc).
Proof. intros H. unfold answered. js_unfold. now rewrite H. Qed.

Lemma handle_input_thrown b w e :
  handle_input_twiml (SpeechResult b) (Digits b) = inl e ->
  answered b w (error_response e).
Proof. intros H. unfold answered. js_unfold. now rewrite H. Qed.

Lemma handle_input_acknowledged b w t :
  handle_input_twiml (SpeechResult b) (Digits b)
  = (if legal_text t then inr (say_doc t) else inl (InvalidCharacter t)) ->
  acknowledged_with t b w.
Proof.
  intros H. split; intros Hl; rewrite Hl in H.
  - now apply handle_input_built.
  - now apply handle_input_thrown.
Qed.

Lemma handle_input_keeps_agent b w :
  agent (exec (IndexWebsocket.post_voice_handle_input b) w) = agent w
  /\ agent (exec (IndexJs.post_voice_handle_input b) w) = agent w.
Proof. split; js; reflexivity. Qed.

(** C4, as the claim states it, fails: a transcript field that is
    present but empty is not echoed; with digits "5" beside it the
    response acknowledges the digits. *)
Lemma present_empty_transcript_not_echoed :
  let b := {| CallSid := Some "CA1"; From := None; To := None;
              SpeechResult := Some EmptyString; Digits := Some "5";
              CallStatus := None |} in
  SpeechResult b <> None
  /\ handle_input_twiml (SpeechResult b) (Digits b)
     = inr (say_doc "You pressed: 5")
  /\ answered b (initial 0) (send_xml (say_doc "You pressed: 5"))
  /\ transcript_branch (say_doc "You pressed: 5") = false.
Proof. repeat split. discriminate. Qed.

(** C4 (amended): for every input-received event, in [index-websocket.js]
    and in [index.js] alike, the handler acknowledges the transcript
    ("I understood: ...") when the transcript field is present and
    non-empty, else the digits ("You pressed: ...") when the digits field
    is present and non-empty, else it says "No input received. Goodbye!".
    Acknowledging is answering 200 [text/xml] with the document that says
    the utterance and then hangs up, provided the utterance holds no
    character XML forbids; when it holds one, building the document throws
    and the error middleware answers 500 "Internal server error", with no
    call-control document and so no hangup.  The utterance holds such a
    character exactly when the transcript (the digits) does.  Every
    request falls under one of the two, and the call store is left as it
    was. *)
Theorem handle_input_branches (b : body) (w : World) :
  (forall s, SpeechResult b = Some s -> s <> EmptyString ->
     acknowledged_with ("I understood: " ++ s) b w)
  /\ (forall d, absent_or_empty (SpeechResult b) ->
        Digits b = Some d -> d <> EmptyString ->
        acknowledged_with ("You pressed: " ++ d) b w)
  /\ (absent_or_empty (SpeechResult b) -> absent_or_empty (Digits b) ->
        answered b w (send_xml (say_doc "No input received. Goodbye!")))
  /\ (exists t, acknowledged_with t b w)
  /\ (forall s, legal_text ("I understood: " ++ s) = legal_text s)
  /\ (forall d, legal_text ("You pressed: " ++ d) = legal_text d)
  /\ (forall t, say_doc t = [Say {| text := t; voice := Polly_Amy |}; Hangup])
  /\ agent (exec (IndexWebsocket.post_voice_handle_input b) w) = agent w
  /\ agent (exec (IndexJs.post_voice_handle_input b) w) = agent w.
Proof.
  assert (Hs : forall s, SpeechResult b = Some s -> s <> EmptyString ->
                 acknowledged_with ("I understood: " ++ s) b w).
  { intros s Hs Hne. apply handle_input_acknowledged.
    rewrite Hs. now apply handle_input_transcript. }
  assert (Hd : forall d, absent_or_empty (SpeechResult b) ->
                 Digits b = Some d -> d <> EmptyString ->
                 acknowledged_with ("You pressed: " ++ d) b w).
  { intros d Ha Hd Hne. apply handle_input_acknowledged.
    rewrite Hd. now apply handle_input_digits. }
  assert (Hn : absent_or_empty (SpeechResult b) ->
               absent_or_empty (Digits b) ->
               answered b w (send_xml (say_doc "No input received. Goodbye!"))).
  { intros Ha Hd'. apply handle_input_built. now apply handle_input_nothing. }
  split; [exact Hs|]. split; [exact Hd|]. split; [exact Hn|].
  split; [|split; [exact legal_understood|];
             split; [exact legal_pressed|];
             split; [reflexivity | apply handle_input_keeps_agent]].
  destruct (field_cases (SpeechResult b)) as [Ha|(s & Es & Hne)].
  - destruct (field_cases (Digits b)) as [Hb|(d & Ed & Hne)].
    + exists "No input received. Goodbye!"%string. split.
      * intros _. now apply Hn.
      * intros Hl. discriminate Hl.
    + eexists. now apply (Hd d).
  - eexists. now apply (Hs s).
Qed.

Lemma handle_input_branches_witness :
  answered body_hello (initial 0) (send_xml (say_doc "I understood: hello")).
Proof.
  destruct (handle_input_branches body_hello (initial 0)) as (H & _).
  destruct (H "hello"%string) as (Hl & _); [reflexivity|discriminate|].
  apply Hl. reflexivity.
Defined.

(** C10: an input-received event whose transcript field is the empty
    string is answered, in [index-websocket.js] and in [index.js] alike,
    exactly as the same event without the transcript field: never by the
    transcript branch; by the digits branch when a non-empty digits field
    is present (the 200 document saying "You pressed: ..." and hanging
    up, or the 500 of the error middleware when the digits hold a
    character XML forbids); by the "no input received" document
    otherwise. *)
Theorem empty_transcript_is_absent (b : body) (w : World) :
  SpeechResult b = Some EmptyString ->
  handle_input_twiml (SpeechResult b) (Digits b)
  = handle_input_twiml None (Digits b)
  /\ answered b w
       (eval (IndexWebsocket.post_voice_handle_input (without_transcript b)) w)
  /\ answered b w
       (eval (IndexJs.post_voice_handle_input (without_transcript b)) w)
  /\ (forall doc, handle_input_twiml (SpeechResult b) (Digits b) = inr doc ->
        transcript_branch doc = false)
  /\ (forall t, handle_input_twiml (SpeechResult b) (Digits b)
                = inl (InvalidCharacter t) ->
        exists d, Digits b = Some d /\ t = ("You pressed: " ++ d)%string)
  /\ (forall d, Digits b = Some d -> d <> EmptyString ->
        acknowledged_with ("You pressed: " ++ d) b w
        /\ digits_branch (say_doc ("You pressed: " ++ d)) = true
        /\ transcript_branch (say_doc ("You pressed: " ++ d)) = false)
  /\ (absent_or_empty (Digits b) ->
        answered b w (send_xml (say_doc "No input received. Goodbye!"))
        /\ no_input_branch (say_doc "No input received. Goodbye!") = true
        /\ transcript_branch (say_doc "No input received. Goodbye!") = false).
Proof.
  intros Hs.
  assert (Ha : absent_or_empty (SpeechResult b)) by now right.
  assert (He : handle_input_twiml (SpeechResult b) (Digits b)
               = handle_input_twiml None (Digits b)) by now rewrite Hs.
  assert (Hcases :
    (exists d, Digits b = Some d /\ d <> EmptyString
       /\ handle_input_twiml (SpeechResult b) (Digits b)
          = (if legal_text ("You pressed: " ++ d)
             then inr (say_doc ("You pressed: " ++ d))
             else inl (InvalidCharacter ("You pressed: " ++ d))))
    \/ (absent_or_empty (Digits b)
        /\ handle_input_twiml (SpeechResult b) (Digits b)
           = inr (say_doc "No input received. Goodbye!"))).
  { destruct (field_cases (Digits b)) as [Hb|(d & Ed & Hne)].
    - right. split; [exact Hb|]. now apply handle_input_nothing.
    - left. exists d. repeat split; trivial.
      rewrite Ed. now apply handle_input_digits. }
  split; [exact He|].
  split; [|split].
  - unfold answered. js_unfold. rewrite <- He.
    destruct (handle_input_twiml (SpeechResult b) (Digits b)); auto.
  - unfold answered. js_unfold. rewrite <- He.
    destruct (handle_input_twiml (SpeechResult b) (Digits b)); auto.
  - split; [|split; [|split]].
    + intros doc Hdoc.
      destruct Hcases as [(d & _ & _ & E)|(_ & E)]; rewrite E in Hdoc.
      * destruct (legal_text ("You pressed: " ++ d)); [|discriminate].
        injection Hdoc as <-. reflexivity.
      * injection Hdoc as <-. reflexivity.
    + intros t Ht.
      destruct Hcases as [(d & Ed & _ & E)|(_ & E)]; rewrite E in Ht.
      * destruct (legal_text ("You pressed: " ++ d)); [discriminate|].
        injection Ht as <-. now exists d.
      * discriminate.
    + intros d Ed Hne. split; [|split; reflexivity].
      apply handle_input_acknowledged. rewrite Ed.
      now apply handle_input_digits.
    + intros Hb. split; [|split; reflexivity].
      apply handle_input_built. now apply handle_input_nothing.
Qed.

Lemma empty_transcript_is_absent_witness :
  answered body_empty_transcript (initial 0)
    (send_xml (say_doc "You pressed: 7")).
Proof.
  destruct (empty_transcript_is_absent body_empty_transcript (initial 0) eq_refl)
    as (_ & _ & _ & _ & _ & Hd & _).
  destruct (Hd "7"%string) as ((Hl & _) & _); [reflexivity|discriminate|].
  apply Hl. reflexivity.
Defined.

(** ** The call store *)

Lemma list_active_In sessions e :
  In e (list_active sessions) <->
  exists s, In (callSid e, s) (JsMap.entries sessions)
            /\ active s = true /\ e = entry_of (callSid e) s.
Proof.
  unfold list_active. rewrite in_map_iff. split.
  - intros [[id s] [<- Hin]]. apply filter_In in Hin as [Hin Hact].
    exists s. simpl in *. auto.
  - intros (s & Hin & Hact & He). exists (callSid e, s). split.
    + now rewrite He.
    + apply filter_In. auto.
Qed.

(** C7: the active-calls listing, in [index-websocket.js] and in
    [index.js] alike, returns exactly the records whose [active] flag is
    set: every record marked active is listed, no record marked inactive
    is, the count is the length of the list, and the handler leaves the
    whole state (store, registry, console) as it found it. *)
Theorem active_calls_listing (w : World) :
  JsMap.wf (callSessions (agent w)) = true ->
  let sessions := callSessions (agent w) in
  let calls := list_active sessions in
  IndexWebsocket.get_voice_calls w = (calls_response sessions, w)
  /\ IndexJs.get_voice_calls w = (calls_response sessions, w)
  /\ (forall e, In e calls <->
        exists s, JsMap.get (callSid e) sessions = Some s
                  /\ active s = true /\ e = entry_of (callSid e) s)
  /\ (forall id s, JsMap.get id sessions = Some s -> active s = true ->
        In (entry_of id s) calls)
  /\ (forall id s, JsMap.get id sessions = Some s -> active s = false ->
        forall e, In e calls -> callSid e <> id).
Proof.
  intros Hwf sessions calls. subst calls.
  assert (Hiff : forall e, In e (list_active sessions) <->
            exists s, JsMap.get (callSid e) sessions = Some s
                      /\ active s = true /\ e = entry_of (callSid e) s).
  { intros e. rewrite list_active_In. split; intros (s & H1 & H2 & H3);
      exists s; repeat split; auto.
    - now apply JsMapFacts.In_get.
    - now apply JsMapFacts.get_In. }
  repeat match goal with |- _ /\ _ => split end.
  - reflexivity.
  - reflexivity.
  - apply Hiff.
  - intros id s Hg Hact. apply Hiff. exists s. simpl. auto.
  - intros id s Hg Hact e He Heq. apply Hiff in He as (s' & Hg' & Hact' & _).
    rewrite Heq, Hg in Hg'. congruence.
Qed.

Lemma active_calls_listing_witness :
  list_active (callSessions (agent two_calls))
  = [entry_of (Some "CA2")
       {| from := Some "+15550000002"; to := Some "+15555678901";
          startTime := 2; active := true |}]
  /\ IndexWebsocket.get_voice_calls two_calls
     = (calls_response (callSessions (agent two_calls)), two_calls).
Proof.
  split; [reflexivity|].
  destruct (active_calls_listing two_calls) as (H & _); [reflexivity|].
  exact H.
Defined.

(** *** Status notifications *)

(** C5, as the claim states it, fails: after the terminal status
    notification for CA1 the record of CA1 is still marked active. *)
Lemma status_callback_leaves_record_active :
  JsMap.get (Some "CA1")
    (callSessions (agent
       (run (initial 0)
          [(1, PostIncoming CA1); (2, PostStatusCallback (completed CA1))]%Z)))
  = Some {| from := Some "+15551234567"; to := Some "+15555678901";
            startTime := 1; active := true |}.
Proof. reflexivity. Qed.

Lemma endCall_keeps_records callSid k w :
  JsMap.has k (callSessions (agent w)) = true ->
  JsMap.has k (callSessions (agent (exec (endCall callSid) w))) = true.
Proof.
  intros Hk. js.
  destruct (JsMap.has callSid (callSessions (agent w))); simpl; auto.
  destruct (JsMap.get callSid (callSessions (agent w))); simpl; auto.
  now apply JsMapFacts.has_set_mono.
Qed.

Lemma closeMediaStream_callSessions callSid w :
  callSessions (agent (exec (closeMediaStream callSid) w))
  = callSessions (agent w).
Proof.
  js. now destruct (JsMap.get callSid (mediaStreams (agent w))).
Qed.

(** No event ever takes a record out of the call store. *)
Lemma step_keeps_records w te k :
  JsMap.has k (callSessions (agent w)) = true ->
  JsMap.has k (callSessions (agent (step w te))) = true.
Proof.
  intros Hk. destruct te as [now e].
  destruct e as [b|b|b|b| |url socket|id m|id|id].
  - js. now apply JsMapFacts.has_set_mono.
  - js; assumption.
  - js. destruct (JsMap.has (CallSid b) (callSessions (agent w))); simpl.
    + destruct (JsMap.get (CallSid b) (callSessions (agent w))); simpl;
        destruct (JsMap.get (CallSid b) (mediaStreams (agent w))); simpl;
        auto using JsMapFacts.has_set_mono.
    + destruct (JsMap.get (CallSid b) (mediaStreams (agent w))); simpl; auto.
  - js; assumption.
  - js; assumption.
  - js. destruct (match_media url); simpl; assumption.
  - js. destruct m as [|event audioData]; simpl; [assumption|].
    destruct (eqb_of event (Some "start")); simpl; [assumption|].
    destruct (eqb_of event (Some "media")); simpl.
    + destruct (JsMap.get (Some id) (mediaStreams (agent w))); simpl; auto.
    + destruct (eqb_of event (Some "stop")); simpl; [|assumption].
      destruct (JsMap.get (Some id) (mediaStreams (agent w))); simpl; auto.
  - js; assumption.
  - js. destruct (JsMap.get (Some id) (mediaStreams (agent w))); simpl; auto.
Qed.

Lemma run_keeps_records tes : forall w k,
  JsMap.has k (callSessions (agent w)) = true ->
  JsMap.has k (callSessions (agent (run w tes))) = true.
Proof.
  induction tes as [|te tes IH]; intros w k Hk; simpl; auto.
  apply IH. now apply step_keeps_records.
Qed.

(** Short of the end-call request for it, no event clears the [active]
    flag of a record. *)
Lemma step_keeps_active w te k s :
  JsMap.get k (callSessions (agent w)) = Some s ->
  active s = true ->
  ends_call k (snd te) = false ->
  exists s', JsMap.get k (callSessions (agent (step w te))) = Some s'
             /\ active s' = true.
Proof.
  intros Hs Hact Hend. destruct te as [now e].
  destruct e as [b|b|b|b| |url socket|id m|id|id]; simpl in Hend.
  - js. destruct (eq_dec (CallSid b) k) as [->|Hne].
    + rewrite JsMapFacts.get_set_eq. eauto.
    + rewrite JsMapFacts.get_set_neq by assumption. eauto.
  - js; eauto.
  - assert (Hne : CallSid b <> k).
    { intros E. subst k. now rewrite eqb_of_refl in Hend. }
    js. destruct (JsMap.has (CallSid b) (callSessions (agent w))); simpl.
    + destruct (JsMap.get (CallSid b) (callSessions (agent w))); simpl;
        destruct (JsMap.get (CallSid b) (mediaStreams (agent w))); simpl;
        rewrite ?JsMapFacts.get_set_neq by assumption; eauto.
    + destruct (JsMap.get (CallSid b) (mediaStreams (agent w))); simpl; eauto.
  - js; eauto.
  - js; eauto.
  - js. destruct (match_media url); simpl; eauto.
  - js. destruct m as [|event audioData]; simpl; [eauto|].
    destruct (eqb_of event (Some "start")); simpl; [eauto|].
    destruct (eqb_of event (Some "media")); simpl.
    + destruct (JsMap.get (Some id) (mediaStreams (agent w))); simpl; eauto.
    + destruct (eqb_of event (Some "stop")); simpl; [|eauto].
      destruct (JsMap.get (Some id) (mediaStreams (agent w))); simpl; eauto.
  - js; eauto.
  - js. destruct (JsMap.get (Some id) (mediaStreams (agent w))); simpl; eauto.
Qed.

(** C5 (amended): a status notification, in [index-websocket.js] and in
    [index.js] alike, is answered by an empty 200 acknowledgment with no
    body and leaves the call store as it was (the record keeps the
    [active] flag it had; the handler only writes one console line); a
    record is marked inactive by the end-call event for its identifier,
    which keeps its other fields, and by no other event; and no event,
    whatever follows, ever removes a record from the store. *)
Theorem status_callback_acknowledges (b : body) (w : World) :
  let line := ("Call Status - CallSid: " ++ show (CallSid b)
               ++ ", Status: " ++ show (CallStatus b))%string in
  IndexWebsocket.post_voice_status_callback b w = (acknowledgment, logged line w)
  /\ IndexJs.post_voice_status_callback b w = (acknowledgment, logged line w)
  /\ (forall s, JsMap.get (CallSid b) (callSessions (agent w)) = Some s ->
        JsMap.get (CallSid b)
          (callSessions (agent (exec (endCall (CallSid b)) w)))
        = Some (deactivate s))
  /\ (forall te k s, JsMap.get k (callSessions (agent w)) = Some s ->
        active s = true -> ends_call k (snd te) = false ->
        exists s', JsMap.get k (callSessions (agent (step w te))) = Some s'
                   /\ active s' = true)
  /\ (forall tes k, JsMap.has k (callSessions (agent w)) = true ->
        JsMap.has k (callSessions (agent (run w tes))) = true).
Proof.
  intros line. repeat match goal with |- _ /\ _ => split end.
  - reflexivity.
  - reflexivity.
  - intros s Hs. js. unfold JsMap.has. rewrite Hs. simpl.
    apply JsMapFacts.get_set_eq.
  - intros te k s. apply step_keeps_active.
  - intros tes k. apply run_keeps_records.
Qed.

Lemma status_callback_acknowledges_witness :
  JsMap.has (Some "CA1")
    (callSessions (agent
       (run two_calls [(4, PostStatusCallback (completed CA1));
                       (5, PostEndCall CA1);
                       (6, WsClosed "CA1")]%Z))) = true.
Proof.
  destruct (status_callback_acknowledges (completed CA1) two_calls)
    as (_ & _ & _ & _ & H).
  apply H. reflexivity.
Defined.

(** *** Duplicate incoming-call events *)

(** C2, as the claim states it, fails: a second incoming-call event for
    CA1 overwrites the record of CA1 (origin, creation timestamp and
    active flag all change). *)
Lemma duplicate_incoming_overwrites_record :
  JsMap.get (Some "CA1") (callSessions (agent ended_call))
  = Some {| from := Some "+15551234567"; to := Some "+15555678901";
            startTime := 1; active := false |}
  /\ JsMap.get (Some "CA1")
       (callSessions (agent (step ended_call (3%Z, PostIncoming CA1_again))))
     = Some {| from := Some "+15559999999"; to := Some "+15555678901";
               startTime := 3; active := true |}
  /\ JsMap.get (Some "CA1")
       (callSessions (agent (step ended_call (3%Z, PostIncoming CA1_again))))
     <> JsMap.get (Some "CA1") (callSessions (agent ended_call)).
Proof. vm_compute. repeat split. discriminate. Qed.

Lemma handleIncoming_agent callSid origin destination w :
  agent (exec (handleIncoming callSid origin destination) w)
  = {| callSessions :=
         JsMap.set callSid
           {| from := origin; to := destination; startTime := clock w;
              active := true |}
           (callSessions (agent w));
       mediaStreams := mediaStreams (agent w) |}.
Proof. reflexivity. Qed.

(** C2 (amended): handling a second incoming-call event for the same
    call identifier, in [index-websocket.js] and in [index.js] alike,
    yields exactly one record for it, and that record is the one of the
    second event: its origin, its destination, its time as creation
    timestamp, and the active flag set; the records of other identifiers
    and the stream registry are untouched. *)
Theorem duplicate_incoming_replaces_record
    (w : World) (b1 b2 : body) (t1 t2 : Z) :
  JsMap.wf (callSessions (agent w)) = true ->
  CallSid b1 = CallSid b2 ->
  let id := CallSid b1 in
  let w2 := run w [(t1, PostIncoming b1); (t2, PostIncoming b2)] in
  let w2' := exec (at_time t1 ;; IndexJs.post_voice_incoming b1 ;;
                   at_time t2 ;; IndexJs.post_voice_incoming b2) w in
  JsMap.count id (callSessions (agent w2)) = 1
  /\ JsMap.get id (callSessions (agent w2)) = Some (incoming_record b2 t2)
  /\ (forall k, k <> id ->
        JsMap.get k (callSessions (agent w2))
        = JsMap.get k (callSessions (agent w)))
  /\ mediaStreams (agent w2) = mediaStreams (agent w)
  /\ agent w2' = agent w2.
Proof.
  intros Hwf Hid id w2 w2'. subst id w2 w2'. js. rewrite Hid.
  repeat match goal with |- _ /\ _ => split end.
  - apply JsMapFacts.count_set. now apply JsMapFacts.wf_set.
  - apply JsMapFacts.get_set_eq.
  - intros k Hk. rewrite !JsMapFacts.get_set_neq; congruence.
  - reflexivity.
  - reflexivity.
Qed.

Lemma duplicate_incoming_replaces_record_witness :
  JsMap.count (Some "CA1")
    (callSessions (agent
       (run ended_call [(3, PostIncoming CA1); (4, PostIncoming CA1_again)]%Z)))
  = 1
  /\ JsMap.get (Some "CA1")
       (callSessions (agent
          (run ended_call
             [(3, PostIncoming CA1); (4, PostIncoming CA1_again)]%Z)))
     = Some (incoming_record CA1_again 4).
Proof.
  destruct (duplicate_incoming_replaces_record
              ended_call CA1 CA1_again 3 4 eq_refl eq_refl)
    as (H1 & H2 & _).
  split; [exact H1|exact H2].
Defined.

(** ** The stream registry *)

(** C1, as the claim states it, fails: a second registration for CA1
    does not fail; it replaces the live session, whose connection handle
    and audio buffer are gone from the registry. *)
Lemma second_register_overwrites_session :
  JsMap.get (Some "CA1") (mediaStreams (agent streaming))
  = Some {| websocket := 7; streamStartTime := 1;
            audioBuffer := [Some "AAAA"] |}
  /\ JsMap.get (Some "CA1")
       (mediaStreams (agent (exec (registerMediaStream (Some "CA1") 8)
                                  streaming)))
     = Some {| websocket := 8; streamStartTime := 2; audioBuffer := [] |}
  /\ JsMap.get (Some "CA1")
       (mediaStreams (agent (exec (registerMediaStream (Some "CA1") 8)
                                  streaming)))
     <> JsMap.get (Some "CA1") (mediaStreams (agent streaming)).
Proof. repeat split. discriminate. Qed.

(** C1 (amended): whether or not a live session is registered for a call
    identifier, a register call for it succeeds and leaves the registry
    with exactly one session for that identifier, the new one (the new
    connection handle, an empty audio buffer); the sessions of other
    identifiers are untouched, nothing is closed or written to the
    console, and the call store is untouched.  At most one stream session
    is registered per identifier at a time. *)
Theorem register_replaces_session
    (w : World) (id : field) (ws : handle) :
  JsMap.wf (mediaStreams (agent w)) = true ->
  let w' := exec (registerMediaStream id ws) w in
  JsMap.get id (mediaStreams (agent w')) = Some (fresh_stream ws (clock w))
  /\ JsMap.count id (mediaStreams (agent w')) = 1
  /\ (forall k, k <> id ->
        JsMap.get k (mediaStreams (agent w'))
        = JsMap.get k (mediaStreams (agent w)))
  /\ trace w' = trace w
  /\ callSessions (agent w') = callSessions (agent w)
  /\ JsMap.wf (mediaStreams (agent w')) = true.
Proof.
  intros Hwf w'. subst w'. js.
  repeat match goal with |- _ /\ _ => split end.
  - apply JsMapFacts.get_set_eq.
  - now apply JsMapFacts.count_set.
  - intros k Hk. rewrite JsMapFacts.get_set_neq; congruence.
  - reflexivity.
  - reflexivity.
  - now apply JsMapFacts.wf_set.
Qed.

Lemma register_replaces_session_witness :
  JsMap.get (Some "CA1")
    (mediaStreams (agent (exec (registerMediaStream (Some "CA1") 8) streaming)))
  = Some (fresh_stream 8 2)
  /\ JsMap.count (Some "CA1")
       (mediaStreams (agent (exec (registerMediaStream (Some "CA1") 8)
                                  streaming))) = 1.
Proof.
  destruct (register_replaces_session streaming (Some "CA1") 8 eq_refl)
    as (H1 & H2 & _).
  split; [exact H1|exact H2].
Defined.

(** *** Teardown *)

Lemma closes_app t1 t2 : closes (t1 ++ t2) = closes t1 ++ closes t2.
Proof. apply flat_map_app. Qed.

Lemma closeMediaStream_spec callSid w :
  let w' := exec (closeMediaStream callSid) w in
  mediaStreams (agent w') = JsMap.delete callSid (mediaStreams (agent w))
  /\ callSessions (agent w') = callSessions (agent w)
  /\ closes (trace w')
     = closes (trace w)
       ++ closed_by_teardown (JsMap.get callSid (mediaStreams (agent w))).
Proof.
  js. destruct (JsMap.get callSid (mediaStreams (agent w))); simpl.
  - rewrite closes_app. auto.
  - rewrite app_nil_r. auto.
Qed.

Lemma endCall_streams callSid w :
  mediaStreams (agent (exec (endCall callSid) w)) = mediaStreams (agent w)
  /\ trace (exec (endCall callSid) w) = trace w.
Proof.
  js. destruct (JsMap.has callSid (callSessions (agent w))); simpl; auto.
  destruct (JsMap.get callSid (callSessions (agent w))); simpl; auto.
Qed.

(** One teardown event: the entry goes, and [close()] is called on the
    connection of the entry if there was one. *)
Lemma teardown_step w now e id :
  is_teardown id e = true ->
  let w' := step w (now, e) in
  mediaStreams (agent w') = JsMap.delete (Some id) (mediaStreams (agent w))
  /\ closes (trace w')
     = closes (trace w)
       ++ closed_by_teardown (JsMap.get (Some id) (mediaStreams (agent w))).
Proof.
  destruct e as [b|b|b|b| |url socket|id' m|id'|id']; simpl; try discriminate.
  - intros Hb. apply eqb_of_true in Hb.
    js. rewrite Hb.
    destruct (JsMap.has (Some id) (callSessions (agent w))); simpl.
    + destruct (JsMap.get (Some id) (callSessions (agent w))); simpl;
        destruct (JsMap.get (Some id) (mediaStreams (agent w))); simpl;
        rewrite ?closes_app, ?app_nil_r; simpl; rewrite ?app_nil_r; auto.
    + destruct (JsMap.get (Some id) (mediaStreams (agent w))); simpl;
        rewrite ?closes_app, ?app_nil_r; simpl; rewrite ?app_nil_r; auto.
  - destruct m as [|ev p]; [discriminate|].
    intros Hb. apply andb_true_iff in Hb as [Hid Hev].
    apply eqb_of_true in Hid. apply eqb_of_true in Hev. subst id' ev.
    js. destruct (JsMap.get (Some id) (mediaStreams (agent w))); simpl;
      rewrite ?closes_app, ?app_nil_r; simpl; rewrite ?app_nil_r; auto.
  - intros Hid. apply eqb_of_true in Hid. subst id'.
    js. destruct (JsMap.get (Some id) (mediaStreams (agent w))); simpl;
      rewrite ?closes_app, ?app_nil_r; simpl; rewrite ?app_nil_r; auto.
Qed.

(** Teardown events that find no entry close nothing. *)
Lemma teardown_again id tes : forall w,
  all_teardown id tes = true ->
  JsMap.get (Some id) (mediaStreams (agent w)) = None ->
  JsMap.get (Some id) (mediaStreams (agent (run w tes))) = None
  /\ closes (trace (run w tes)) = closes (trace w).
Proof.
  induction tes as [|[now e] tes IH]; intros w Hall Hnone; simpl; auto.
  simpl in Hall. apply andb_true_iff in Hall as [He Hall].
  destruct (teardown_step w now e id He) as [Hm Hc].
  rewrite Hnone in Hc. simpl in Hc. rewrite app_nil_r in Hc.
  rewrite JsMapFacts.delete_absent in Hm by assumption.
  destruct (IH (step w (now, e)) Hall) as [H1 H2].
  - now rewrite Hm.
  - split; [assumption|congruence].
Qed.

(** C3: teardown is idempotent.  Whatever the state, after one or more
    teardown events for a call identifier (stop messages, close
    notifications and end-call requests, in any number and any order)
    the registry holds no entry for the identifier, and [close()] has
    been called exactly once, on the connection of the session that was
    registered (and not at all if none was). *)
Theorem teardown_idempotent (w : World) (id : string) (tes : list (Z * event)) :
  JsMap.wf (mediaStreams (agent w)) = true ->
  tes <> [] ->
  all_teardown id tes = true ->
  let w' := run w tes in
  JsMap.get (Some id) (mediaStreams (agent w')) = None
  /\ closes (trace w')
     = closes (trace w)
       ++ closed_by_teardown (JsMap.get (Some id) (mediaStreams (agent w)))
  /\ (forall s, JsMap.get (Some id) (mediaStreams (agent w)) = Some s ->
        closes (trace w') = closes (trace w) ++ [websocket s]).
Proof.
  intros Hwf Hne Hall w'. subst w'.
  destruct tes as [|[now e] tes]; [congruence|].
  simpl in Hall. apply andb_true_iff in Hall as [He Hall].
  destruct (teardown_step w now e id He) as [Hm Hc].
  assert (Hgone : JsMap.get (Some id)
                    (mediaStreams (agent (step w (now, e)))) = None).
  { rewrite Hm. now apply JsMapFacts.get_delete_eq. }
  destruct (teardown_again id tes (step w (now, e)) Hall Hgone) as [H1 H2].
  simpl. repeat split.
  - exact H1.
  - congruence.
  - intros s Hs. rewrite H2, Hc, Hs. reflexivity.
Qed.

(** Stop, then the close notification, then an end-call request. *)
Lemma teardown_idempotent_witness :
  JsMap.get (Some "CA1")
    (mediaStreams (agent
       (run streaming [(3%Z, WsMessage "CA1" stop); (4%Z, WsClosed "CA1");
                       (5%Z, PostEndCall CA1)]))) = None
  /\ closes (trace
       (run streaming [(3%Z, WsMessage "CA1" stop); (4%Z, WsClosed "CA1");
                       (5%Z, PostEndCall CA1)])) = [7].
Proof.
  destruct (teardown_idempotent streaming "CA1"
              [(3%Z, WsMessage "CA1" stop); (4%Z, WsClosed "CA1");
               (5%Z, PostEndCall CA1)]) as (H1 & H2 & _).
  - reflexivity.
  - discriminate.
  - reflexivity.
  - split; [exact H1|exact H2].
Defined.

(** *** Media frames *)

(** C8, as the claim states it, fails on one word: a frame for an
    identifier without a live session is not logged.  The late frame for
    CA1 after its [stop] leaves the console as it was. *)
Lemma late_frame_not_logged :
  JsMap.get (Some "CA1") (mediaStreams (agent stopped)) = None
  /\ console (trace (exec (ws_on_message "CA1" (media "BBBB")) stopped))
     = console (trace stopped)
  /\ ~ (exists line,
          trace (exec (ws_on_message "CA1" (media "BBBB")) stopped)
          = trace stopped ++ [ConsoleLog line]).
Proof.
  repeat split. intros [line H]. discriminate H.
Qed.

(** C8 (amended): a media-frame message on a connection opened for [id]
    changes nothing at all when the registry holds no session for [id]
    (no session is created, no buffer is written, nothing is raised and
    nothing is written to the console), which is the case after any
    teardown event for [id]; when a session is registered, the payload is
    appended to the end of that session's audio buffer and nothing else
    changes. *)
Theorem media_frame_handling (w : World) (id : string) (audioData : field) :
  JsMap.wf (mediaStreams (agent w)) = true ->
  let frame := Data (Some "media") audioData in
  let w' := exec (ws_on_message id frame) w in
  match JsMap.get (Some id) (mediaStreams (agent w)) with
  | None => w' = w
  | Some s =>
      JsMap.get (Some id) (mediaStreams (agent w'))
      = Some {| websocket := websocket s;
                streamStartTime := streamStartTime s;
                audioBuffer := audioBuffer s ++ [audioData] |}
      /\ (forall k, k <> Some id ->
            JsMap.get k (mediaStreams (agent w'))
            = JsMap.get k (mediaStreams (agent w)))
      /\ callSessions (agent w') = callSessions (agent w)
      /\ trace w' = trace w
  end
  /\ (forall now e, is_teardown id e = true ->
        exec (ws_on_message id frame) (step w (now, e)) = step w (now, e)).
Proof.
  intros Hwf frame w'. subst frame w'. split.
  - js. destruct (JsMap.get (Some id) (mediaStreams (agent w))) eqn:Hg; simpl.
    + repeat split.
      * apply JsMapFacts.get_set_eq.
      * intros k Hk. rewrite JsMapFacts.get_set_neq; congruence.
    + now destruct w.
  - intros now e He.
    destruct (teardown_step w now e id He) as [Hm _].
    assert (Hgone : JsMap.get (Some id)
                      (mediaStreams (agent (step w (now, e)))) = None).
    { rewrite Hm. now apply JsMapFacts.get_delete_eq. }
    generalize dependent (step w (now, e)). intros w1 _ Hgone.
    js. rewrite Hgone. simpl. now destruct w1.
Qed.

Lemma media_frame_handling_witness :
  exec (ws_on_message "CA1" (media "BBBB")) stopped = stopped
  /\ JsMap.get (Some "CA1")
       (mediaStreams (agent (exec (ws_on_message "CA1" (media "BBBB"))
                                  streaming)))
     = Some {| websocket := 7; streamStartTime := 1;
               audioBuffer := [Some "AAAA"; Some "BBBB"] |}.
Proof.
  destruct (media_frame_handling streaming "CA1" (Some "BBBB") eq_refl)
    as [Hlive Hlate].
  split.
  - apply (Hlate 3%Z (WsMessage "CA1" stop)). reflexivity.
  - exact (proj1 Hlive).
Defined.

(** ** Upgrade routing *)

Lemma strip_prefix_spec p : forall s r,
  strip_prefix p s = Some r <-> s = (p ++ r)%string.
Proof.
  induction p as [|a p IH]; intros s r; simpl.
  - split; [intros [= ->]; reflexivity|intros ->; reflexivity].
  - destruct s as [|b s]; [split; discriminate|].
    destruct (Ascii.eqb_spec a b) as [->|Hab].
    + rewrite IH. split; [intros ->; reflexivity|intros [= ->]; reflexivity].
    + split; [discriminate|intros [= <- _]; congruence].
Qed.

(** The pattern matches exactly the paths [/media/<id>] with [<id>] a
    non-empty run of ASCII letters and digits, and captures [<id>]. *)
Lemma match_media_spec url id :
  match_media url = Some id <->
  url = ("/media/" ++ id)%string /\ id <> EmptyString /\ all_alnum id = true.
Proof.
  unfold match_media. split.
  - destruct (strip_prefix "/media/" url) as [[|c rest]|] eqn:Hp;
      try discriminate.
    destruct (all_alnum (String c rest)) eqn:Ha; [|discriminate].
    intros [= <-]. apply strip_prefix_spec in Hp.
    repeat split; [assumption|discriminate|assumption].
  - intros (Hu & Hne & Ha).
    apply (strip_prefix_spec "/media/") in Hu. rewrite Hu.
    destruct id as [|c rest]; [congruence|]. now rewrite Ha.
Qed.

Lemma is_alnum_spec c :
  is_alnum c = true <->
  (nat_of_ascii "A" <= nat_of_ascii c <= nat_of_ascii "Z")
  \/ (nat_of_ascii "a" <= nat_of_ascii c <= nat_of_ascii "z")
  \/ (nat_of_ascii "0" <= nat_of_ascii c <= nat_of_ascii "9").
Proof.
  unfold is_alnum. cbv zeta.
  rewrite !orb_true_iff, !andb_true_iff, !Nat.leb_le.
  change (nat_of_ascii "A") with 65. change (nat_of_ascii "Z") with 90.
  change (nat_of_ascii "a") with 97. change (nat_of_ascii "z") with 122.
  change (nat_of_ascii "0") with 48. change (nat_of_ascii "9") with 57.
  tauto.
Qed.

Lemma upgrade_outcome w url socket :
  match match_media url with
  | Some id => accepted_for id socket w (exec (server_on_upgrade url socket) w)
  | None => rejected socket w (exec (server_on_upgrade url socket) w)
  end.
Proof.
  unfold server_on_upgrade. destruct (match_media url) as [id|].
  - unfold accepted_for. js. repeat split.
    + apply JsMapFacts.get_set_eq.
    + now rewrite <- app_assoc.
  - unfold rejected. js. auto.
Qed.

(** C9: an upgrade request is accepted (the connection handler runs and
    registers a session) if and only if its URL is [/media/<id>] with
    [<id>] a non-empty string of ASCII letters and digits, and then the
    session is registered under [<id>]; for any other URL the socket is
    destroyed and the registry, like the rest of the agent, is left as it
    was. *)
Theorem upgrade_routing (w : World) (url : string) (socket : handle) :
  let w' := exec (server_on_upgrade url socket) w in
  (forall id,
     accepted_for id socket w w' <->
     url = ("/media/" ++ id)%string /\ id <> EmptyString
     /\ all_alnum id = true)
  /\ ((~ exists id, url = ("/media/" ++ id)%string /\ id <> EmptyString
                    /\ all_alnum id = true) <->
      rejected socket w w').
Proof.
  intros w'. subst w'.
  pose proof (upgrade_outcome w url socket) as Hout.
  destruct (match_media url) as [id0|] eqn:Hm.
  - apply match_media_spec in Hm as Hspec. split.
    + intros id. split.
      * intros (_ & _ & Ht). destruct Hout as (_ & _ & Ht0).
        rewrite Ht0 in Ht. apply app_inv_head in Ht.
        injection Ht as _ Hid. now subst id.
      * intros Hid. apply match_media_spec in Hid.
        assert (id = id0) by congruence. now subst id.
    + split.
      * intros Hno. exfalso. apply Hno. now exists id0.
      * intros [_ Ht]. destruct Hout as (_ & _ & Ht0).
        rewrite Ht0 in Ht. apply app_inv_head in Ht. discriminate.
  - split.
    + intros id. split.
      * intros (_ & _ & Ht). destruct Hout as [_ Ht0].
        rewrite Ht0 in Ht. apply app_inv_head in Ht. discriminate.
      * intros Hid. apply match_media_spec in Hid. congruence.
    + split; [intros _; exact Hout|].
      intros _ [id Hid]. apply match_media_spec in Hid. congruence.
Qed.

(** The pattern at its edges. *)
Lemma match_media_examples :
  match_media "/media/CA1f00dBEEF" = Some "CA1f00dBEEF"
  /\ match_media "/media/" = None
  /\ match_media "/media/CA_1" = None
  /\ match_media "/media/CA1/" = None
  /\ match_media "/media/CA1?x=1" = None
  /\ match_media "/Media/CA1" = None
  /\ match_media "/voice/media/CA1" = None
  /\ map is_alnum ["@"; "["; "`"; "{"; "/"; ":"]%char
     = [false; false; false; false; false; false]
  /\ map is_alnum ["A"; "Z"; "a"; "z"; "0"; "9"]%char
     = [true; true; true; true; true; true].
Proof. repeat split. Qed.

(** ** The serialised document *)

Lemma run_app a : forall b st,
  Xml.run (a ++ b) st
  = match Xml.run a st with
    | Some st' => Xml.run b st'
    | None => None
    end.
Proof.
  induction a as [|c a IH]; intros b st; simpl; auto.
  destruct (Xml.step c st); auto.
Qed.

(** Escaped text, read as the content of an open element, leaves the
    reader where it was: it opens no tag and leaves no entity unfinished. *)
Lemma run_escape top rest r : forall t,
  Xml.run (escape t) (inside top rest r) = Some (inside top rest r).
Proof.
  induction t as [|c t IH]; [reflexivity|].
  change (escape (String c t)) with (escape_char c ++ escape t)%string.
  rewrite run_app. unfold escape_char.
  destruct (Ascii.eqb c "&") eqn:E1; [exact IH|].
  destruct (Ascii.eqb c "<") eqn:E2; [exact IH|].
  destruct (Ascii.eqb c ">") eqn:E3; [exact IH|].
  destruct (Ascii.eqb c dquote) eqn:E4; [exact IH|].
  destruct (Ascii.eqb c "'") eqn:E5; [exact IH|].
  simpl. unfold Xml.step. simpl. rewrite E2, E1, E3. exact IH.
Qed.

Lemma no_raw_markup_app a : forall b,
  Xml.no_raw_markup (a ++ b) = Xml.no_raw_markup a && Xml.no_raw_markup b.
Proof.
  induction a as [|c a IH]; intros b; simpl; auto.
  rewrite IH. now rewrite !andb_assoc.
Qed.

Lemma escape_no_raw_markup : forall t, Xml.no_raw_markup (escape t) = true.
Proof.
  induction t as [|c t IH]; [reflexivity|].
  change (escape (String c t)) with (escape_char c ++ escape t)%string.
  rewrite no_raw_markup_app, IH, andb_true_r. unfold escape_char.
  destruct (Ascii.eqb c "&") eqn:E1; [reflexivity|].
  destruct (Ascii.eqb c "<") eqn:E2; [reflexivity|].
  destruct (Ascii.eqb c ">") eqn:E3; [reflexivity|].
  destruct (Ascii.eqb c dquote) eqn:E4; [reflexivity|].
  destruct (Ascii.eqb c "'") eqn:E5; [reflexivity|].
  simpl. now rewrite E2, E3, E4, E5.
Qed.

Lemma decode_escape : forall t, Xml.decode (escape t) = Some t.
Proof.
  unfold Xml.decode.
  induction t as [|c t IH]; [reflexivity|].
  change (escape (String c t)) with (escape_char c ++ escape t)%string.
  unfold escape_char.
  destruct (Ascii.eqb c "&") eqn:E1;
    [apply Ascii.eqb_eq in E1; subst c; simpl; now rewrite IH|].
  destruct (Ascii.eqb c "<") eqn:E2;
    [apply Ascii.eqb_eq in E2; subst c; simpl; now rewrite IH|].
  destruct (Ascii.eqb c ">") eqn:E3;
    [apply Ascii.eqb_eq in E3; subst c; simpl; now rewrite IH|].
  destruct (Ascii.eqb c dquote) eqn:E4;
    [apply Ascii.eqb_eq in E4; subst c; simpl; now rewrite IH|].
  destruct (Ascii.eqb c "'") eqn:E5;
    [apply Ascii.eqb_eq in E5; subst c; simpl; now rewrite IH|].
  simpl. now rewrite E1, IH.
Qed.

Lemma append_assoc (a b c : string) :
  ((a ++ b) ++ c = a ++ (b ++ c))%string.
Proof. induction a as [|x a IH]; simpl; congruence. Qed.

Lemma toString_say_doc t :
  toString (say_doc t) = (say_open ++ escape t ++ say_close)%string.
Proof.
  unfold toString, say_doc, say_open. simpl map.
  unfold verb_xml, say_xml, attr, quoted, quote_mark. simpl text. simpl voice.
  unfold Polly_Amy, say_close.
  repeat (rewrite ?append_assoc; simpl).
  reflexivity.
Qed.

(** *** Escaped text holds the characters of the text *)

(** Escaping a character changes nothing to what is read of forbidden
    characters: the five reserved characters and the entities that
    replace them are plain. *)
Lemma scan_escape_char c st rest :
  scan (escape_char c ++ rest) st = scan (String c rest) st.
Proof.
  unfold escape_char.
  destruct (Ascii.eqb c "&") eqn:E1;
    [apply Ascii.eqb_eq in E1; subst c; now destruct st|].
  destruct (Ascii.eqb c "<") eqn:E2;
    [apply Ascii.eqb_eq in E2; subst c; now destruct st|].
  destruct (Ascii.eqb c ">") eqn:E3;
    [apply Ascii.eqb_eq in E3; subst c; now destruct st|].
  destruct (Ascii.eqb c dquote) eqn:E4;
    [apply Ascii.eqb_eq in E4; subst c; now destruct st|].
  destruct (Ascii.eqb c "'") eqn:E5;
    [apply Ascii.eqb_eq in E5; subst c; now destruct st|].
  reflexivity.
Qed.

Lemma scan_escape t : forall st, scan (escape t) st = scan t st.
Proof.
  induction t as [|c t IH]; intros st; [reflexivity|].
  change (escape (String c t)) with (escape_char c ++ escape t)%string.
  rewrite scan_escape_char. simpl.
  destruct (forbidden_byte c || completes c st); auto.
Qed.

Lemma legal_text_escape t : legal_text (escape t) = legal_text t.
Proof. unfold legal_text. now rewrite scan_escape. Qed.

(** Markup starts afresh, whatever bytes came before. *)
Lemma scan_say_close st : scan say_close st = Some Plain.
Proof. now destruct st. Qed.

Lemma legal_say_doc t :
  legal_text t = true ->
  legal_text (say_open ++ escape t ++ say_close) = true.
Proof.
  unfold legal_text. intros Ht. rewrite scan_app.
  change (scan say_open Plain) with (Some Plain). cbv beta iota.
  rewrite scan_app, scan_escape.
  destruct (scan t Plain); [|discriminate].
  now rewrite scan_say_close.
Qed.

Lemma say_doc_well_formed t :
  legal_text t = true -> Xml.well_formed (toString (say_doc t)) = true.
Proof.
  intros Ht. rewrite toString_say_doc. unfold Xml.well_formed.
  rewrite (legal_say_doc _ Ht). rewrite run_app.
  change (Xml.run say_open Xml.init)
    with (Some (inside "Say" ["Response"%string] 0)).
  cbv beta iota. rewrite run_app, run_escape. reflexivity.
Qed.

(** C6, as the claim states it, fails: a transcript that holds a
    character XML forbids (here the control character U+0001) is not
    acknowledged by any document.  Building the document throws, and
    both files answer 500 "Internal server error": no escaped transcript,
    no hangup directive. *)
Lemma forbidden_transcript_gets_no_document :
  SpeechResult body_control = Some control_char
  /\ handle_input_twiml (SpeechResult body_control) (Digits body_control)
     = inl (InvalidCharacter ("I understood: " ++ control_char))
  /\ eval (IndexWebsocket.post_voice_handle_input body_control) (initial 0)
     = {| status := 500; contentType := None;
          content := ErrorJson "Internal server error"
                       (InvalidCharacter ("I understood: " ++ control_char)) |}
  /\ eval (IndexJs.post_voice_handle_input body_control) (initial 0)
     = {| status := 500; contentType := None;
          content := ErrorJson "Internal server error"
                       (InvalidCharacter ("I understood: " ++ control_char)) |}
  /\ (forall doc,
        eval (IndexWebsocket.post_voice_handle_input body_control) (initial 0)
        <> send_xml doc).
Proof. vm_compute. repeat split. discriminate. Qed.

(** C6 (amended): for every input-received event that carries a
    (non-empty) transcript, in [index-websocket.js] and in [index.js]
    alike: when the transcript holds no character XML forbids, the
    response is the 200 [text/xml] serialisation of the document that
    says "I understood: " followed by the transcript and then hangs up;
    the serialised document is well-formed XML whatever reserved
    characters the transcript contains, and the utterance stands escaped
    in it: no [<], [>] or quote stands for itself, and decoding the
    entity references gives the utterance back.  When the transcript
    holds a character XML forbids, there is no document: the error
    middleware answers 500. *)
Theorem transcript_echo_is_escaped (b : body) (w : World) (s : string) :
  SpeechResult b = Some s -> s <> EmptyString ->
  let reply := ("I understood: " ++ s)%string in
  let xml := (say_open ++ escape reply ++ say_close)%string in
  (legal_text s = true ->
     answered b w {| status := 200; contentType := Some "text/xml";
                     content := Text xml |}
     /\ xml = toString [Say {| text := reply; voice := Polly_Amy |}; Hangup]
     /\ Xml.well_formed xml = true
     /\ Xml.no_raw_markup (escape reply) = true
     /\ Xml.decode (escape reply) = Some reply)
  /\ (legal_text s = false ->
        answered b w {| status := 500; contentType := None;
                        content := ErrorJson "Internal server error"
                                     (InvalidCharacter reply) |}).
Proof.
  intros Hs Hne reply xml. subst reply xml.
  assert (Hdoc := handle_input_transcript s (Digits b) Hne).
  rewrite <- Hs, legal_understood in Hdoc.
  split; intros Hl; rewrite Hl in Hdoc.
  - pose proof (toString_say_doc ("I understood: " ++ s)) as Hx.
    unfold say_doc in Hx. rewrite <- Hx.
    repeat match goal with |- _ /\ _ => split end.
    + now apply (handle_input_built b w).
    + reflexivity.
    + apply say_doc_well_formed. now rewrite legal_understood.
    + apply escape_no_raw_markup.
    + apply decode_escape.
  - now apply (handle_input_thrown b w).
Qed.

Lemma transcript_echo_is_escaped_witness :
  answered body_markup (initial 0)
    {| status := 200; contentType := Some "text/xml";
       content := Text (say_open
         ++ "I understood: &lt;/Say&gt;&lt;Dial&gt;+15550000000&lt;/Dial&gt; &amp; more"
         ++ say_close) |}
  /\ Xml.well_formed (say_open
       ++ "I understood: &lt;/Say&gt;&lt;Dial&gt;+15550000000&lt;/Dial&gt; &amp; more"
       ++ say_close) = true.
Proof.
  destruct (transcript_echo_is_escaped body_markup (initial 0)
              "</Say><Dial>+15550000000</Dial> & more") as (H & _).
  - reflexivity.
  - discriminate.
  - destruct H as (Ha & _ & Hwf & _); [reflexivity|].
    split; [exact Ha | exact Hwf].
Defined.

(** The checker is not satisfied by everything: the same utterance
    written into the document unescaped is refused. *)
Lemma unescaped_echo_is_malformed :
  Xml.well_formed (say_open ++ "I understood: a<b" ++ say_close) = false
  /\ Xml.well_formed (say_open ++ "I understood: a&b" ++ say_close) = false
  /\ Xml.well_formed
       (say_open ++ "I understood: </Say><Hangup/></Response><Response><Say>x"
          ++ say_close) = false.
Proof. repeat split. Qed.


(** * Further properties of the two servers *)

(** ** A record depends on the events of its own call only *)

Lemma has_get_None {V} (k : field) (m : JsMap.t field V) :
  JsMap.has k m = false -> JsMap.get k m = None.
Proof. unfold JsMap.has. now destruct (JsMap.get k m). Qed.

Lemma step_record w te id :
  JsMap.get id (callSessions (agent (step w te)))
  = record_step id (JsMap.get id (callSessions (agent w))) te.
Proof.
  destruct te as [now e]. unfold record_step.
  destruct e as [b|b|b|b| |url socket|id' m|id'|id']; simpl snd; simpl fst.
  - js. destruct (eq_dec (CallSid b) id) as [->|Hne].
    + now rewrite JsMapFacts.get_set_eq, eqb_of_refl.
    + now rewrite JsMapFacts.get_set_neq, eqb_of_neq by assumption.
  - js; reflexivity.
  - js. destruct (JsMap.has (CallSid b) (callSessions (agent w))) eqn:Hh; simpl.
    + unfold JsMap.has in Hh.
      destruct (JsMap.get (CallSid b) (callSessions (agent w))) as [s|] eqn:Hg;
        [|discriminate].
      simpl. destruct (JsMap.get (CallSid b) (mediaStreams (agent w))); simpl;
        (destruct (eq_dec (CallSid b) id) as [E|Hne];
         [rewrite <- E, JsMapFacts.get_set_eq, eqb_of_refl, Hg; reflexivity
         |rewrite JsMapFacts.get_set_neq, eqb_of_neq by assumption;
          reflexivity]).
    + apply has_get_None in Hh.
      destruct (JsMap.get (CallSid b) (mediaStreams (agent w))); simpl;
        (destruct (eq_dec (CallSid b) id) as [E|Hne];
         [rewrite <- E, eqb_of_refl, Hh; reflexivity
         |rewrite eqb_of_neq by assumption; reflexivity]).
  - reflexivity.
  - reflexivity.
  - js. now destruct (match_media url).
  - js. destruct m as [|ev p]; simpl; [reflexivity|].
    destruct (eqb_of ev (Some "start")); simpl; [reflexivity|].
    destruct (eqb_of ev (Some "media")); simpl.
    + now destruct (JsMap.get (Some id') (mediaStreams (agent w))).
    + destruct (eqb_of ev (Some "stop")); simpl; [|reflexivity].
      now destruct (JsMap.get (Some id') (mediaStreams (agent w))).
  - reflexivity.
  - js. now destruct (JsMap.get (Some id') (mediaStreams (agent w))).
Qed.

(** X1: after any history, the record stored for a call identifier is
    the one its own incoming-call and end-call requests tell: the record
    of the latest incoming-call request for it, marked inactive if an
    end-call request for it came after; requests for other identifiers
    and all other events leave it as it is. *)
Theorem store_history (w : World) (tes : list (Z * event)) (id : field) :
  JsMap.get id (callSessions (agent (run w tes)))
  = record_after id (JsMap.get id (callSessions (agent w))) tes.
Proof.
  revert w. induction tes as [|te tes IH]; intros w; simpl; [reflexivity|].
  unfold record_after in *. simpl. rewrite IH. now rewrite step_record.
Qed.

(** ** A stream session depends on the events of its own call only *)

Lemma step_wf_streams w te :
  JsMap.wf (mediaStreams (agent w)) = true ->
  JsMap.wf (mediaStreams (agent (step w te))) = true.
Proof.
  intros Hm. destruct te as [now e].
  destruct e as [b|b|b|b| |url socket|id m|id|id].
  - js; assumption.
  - js; assumption.
  - js. destruct (JsMap.has (CallSid b) (callSessions (agent w))); simpl.
    + destruct (JsMap.get (CallSid b) (callSessions (agent w))); simpl;
        destruct (JsMap.get (CallSid b) (mediaStreams (agent w))); simpl;
        auto using JsMapFacts.wf_delete.
    + destruct (JsMap.get (CallSid b) (mediaStreams (agent w))); simpl;
        auto using JsMapFacts.wf_delete.
  - js; assumption.
  - js; assumption.
  - js. destruct (match_media url); simpl; auto using JsMapFacts.wf_set.
  - js. destruct m as [|ev p]; simpl; [assumption|].
    destruct (eqb_of ev (Some "start")); simpl; [assumption|].
    destruct (eqb_of ev (Some "media")); simpl.
    + destruct (JsMap.get (Some id) (mediaStreams (agent w))); simpl;
        auto using JsMapFacts.wf_set.
    + destruct (eqb_of ev (Some "stop")); simpl; [|assumption].
      destruct (JsMap.get (Some id) (mediaStreams (agent w))); simpl;
        auto using JsMapFacts.wf_delete.
  - js; assumption.
  - js. destruct (JsMap.get (Some id) (mediaStreams (agent w))); simpl;
      auto using JsMapFacts.wf_delete.
Qed.

Lemma Some_neq (a b : string) : a <> b -> Some a <> Some b.
Proof. congruence. Qed.

Lemma step_session w te id :
  JsMap.wf (mediaStreams (agent w)) = true ->
  JsMap.get (Some id) (mediaStreams (agent (step w te)))
  = session_step id (JsMap.get (Some id) (mediaStreams (agent w))) te.
Proof.
  intros Hm. destruct te as [now e]. unfold session_step.
  destruct e as [b|b|b|b| |url socket|id' m|id'|id']; simpl snd; simpl fst.
  - reflexivity.
  - js; reflexivity.
  - assert (Hs : mediaStreams (agent (step w (now, PostEndCall b)))
                 = JsMap.delete (CallSid b) (mediaStreams (agent w))).
    { js. destruct (JsMap.has (CallSid b) (callSessions (agent w))); simpl.
      - destruct (JsMap.get (CallSid b) (callSessions (agent w))); simpl;
          now destruct (JsMap.get (CallSid b) (mediaStreams (agent w))).
      - now destruct (JsMap.get (CallSid b) (mediaStreams (agent w))). }
    rewrite Hs. destruct (eq_dec (CallSid b) (Some id)) as [E|Hne].
    + rewrite E, eqb_of_refl. now apply JsMapFacts.get_delete_eq.
    + rewrite eqb_of_neq by assumption. now apply JsMapFacts.get_delete_neq.
  - reflexivity.
  - reflexivity.
  - js. destruct (match_media url) as [id'|]; simpl; [|reflexivity].
    destruct (eq_dec id' id) as [->|Hne].
    + now rewrite JsMapFacts.get_set_eq, eqb_of_refl.
    + rewrite JsMapFacts.get_set_neq, eqb_of_neq; auto using Some_neq.
  - js. destruct m as [|ev p]; simpl; [reflexivity|].
    destruct (eqb_of ev (Some "start")); simpl;
      [now destruct (eqb_of id' id)|].
    destruct (eqb_of ev (Some "media")); simpl.
    + destruct (eq_dec id' id) as [->|Hne].
      * rewrite eqb_of_refl.
        destruct (JsMap.get (Some id) (mediaStreams (agent w))) eqn:Hg; simpl;
          [apply JsMapFacts.get_set_eq|exact Hg].
      * rewrite (eqb_of_neq _ _ Hne).
        destruct (JsMap.get (Some id') (mediaStreams (agent w))); simpl;
          [|reflexivity].
        apply JsMapFacts.get_set_neq. auto using Some_neq.
    + destruct (eqb_of ev (Some "stop")); simpl;
        [|now destruct (eqb_of id' id)].
      destruct (eq_dec id' id) as [->|Hne].
      * rewrite eqb_of_refl.
        destruct (JsMap.get (Some id) (mediaStreams (agent w))); simpl;
          now apply JsMapFacts.get_delete_eq.
      * rewrite (eqb_of_neq _ _ Hne).
        destruct (JsMap.get (Some id') (mediaStreams (agent w))); simpl;
          apply JsMapFacts.get_delete_neq; auto using Some_neq.
  - reflexivity.
  - js. destruct (eq_dec id' id) as [->|Hne].
    + rewrite eqb_of_refl.
      destruct (JsMap.get (Some id) (mediaStreams (agent w))); simpl;
        now apply JsMapFacts.get_delete_eq.
    + rewrite (eqb_of_neq _ _ Hne).
      destruct (JsMap.get (Some id') (mediaStreams (agent w))); simpl;
        apply JsMapFacts.get_delete_neq; auto using Some_neq.
Qed.

Lemma run_wf_streams tes : forall w,
  JsMap.wf (mediaStreams (agent w)) = true ->
  JsMap.wf (mediaStreams (agent (run w tes))) = true.
Proof.
  induction tes as [|te tes IH]; intros w Hm; simpl; auto.
  apply IH. now apply step_wf_streams.
Qed.

(** X2: after any history, the stream session registered for a call
    identifier is the one its own events tell: the session of the latest
    accepted upgrade for it, with the media payloads received since
    appended in order, and none at all once a stop message, a close
    notification or an end-call request for it came after; events of
    other calls leave it as it is. *)
Theorem registry_history (w : World) (tes : list (Z * event)) (id : string) :
  JsMap.wf (mediaStreams (agent w)) = true ->
  JsMap.get (Some id) (mediaStreams (agent (run w tes)))
  = session_after id (JsMap.get (Some id) (mediaStreams (agent w))) tes.
Proof.
  revert w. induction tes as [|te tes IH]; intros w Hm; simpl; [reflexivity|].
  unfold session_after in *. simpl.
  rewrite IH by now apply step_wf_streams.
  now rewrite step_session.
Qed.

Lemma registry_history_witness :
  JsMap.get (Some "CA1")
    (mediaStreams (agent
       (run streaming
          [(3%Z, WsMessage "CA2" stop);
           (4%Z, WsMessage "CA1" (media "BBBB"));
           (5%Z, Upgrade "/media/CA2" 9);
           (6%Z, PostEndCall CA2)])))
  = Some {| websocket := 7; streamStartTime := 1;
            audioBuffer := [Some "AAAA"; Some "BBBB"] |}.
Proof.
  rewrite (registry_history streaming); reflexivity.
Defined.

(** ** The audio buffer *)

Lemma extend_nil s : extend s [] = s.
Proof. destruct s. unfold extend. simpl. now rewrite app_nil_r. Qed.

Lemma extend_extend s p q : extend (extend s p) q = extend s (p ++ q).
Proof. unfold extend. simpl. now rewrite app_assoc. Qed.

Lemma session_step_undisturbed id s te :
  disturbs id (snd te) = false ->
  session_step id (Some s) te = Some (extend s (frames_for id [te])).
Proof.
  destruct te as [now e]. unfold disturbs, session_step, frames_for.
  simpl snd. simpl fst. simpl flat_map.
  destruct e as [b|b|b|b| |url socket|id' m|id'|id']; simpl;
    rewrite ?extend_nil; try reflexivity.
  - now destruct (eqb_of (CallSid b) (Some id)).
  - destruct (match_media url) as [id'|]; [|reflexivity].
    now destruct (eqb_of id' id).
  - destruct m as [|ev p]; simpl; rewrite ?extend_nil; [reflexivity|].
    destruct (eqb_of id' id); simpl; rewrite ?extend_nil; [|reflexivity].
    destruct (eqb_of ev (Some "start")) eqn:Es.
    + apply eqb_of_true in Es. subst ev. simpl. now rewrite extend_nil.
    + destruct (eqb_of ev (Some "media")); simpl.
      * reflexivity.
      * rewrite extend_nil. now destruct (eqb_of ev (Some "stop")).
  - now destruct (eqb_of id' id).
Qed.

(** X3: the audio buffer is append-only and keeps the order of arrival.
    As long as no stop message, close notification, end-call request or
    new accepted upgrade for the identifier occurs, the session stays
    registered with its connection and start time, and its buffer is the
    old buffer followed by the payloads of the media frames received for
    that identifier, in the order received; frames of other calls never
    enter it. *)
Theorem frames_buffered_in_order
    (w : World) (tes : list (Z * event)) (id : string) (s : stream) :
  JsMap.wf (mediaStreams (agent w)) = true ->
  JsMap.get (Some id) (mediaStreams (agent w)) = Some s ->
  undisturbed id tes = true ->
  JsMap.get (Some id) (mediaStreams (agent (run w tes)))
  = Some {| websocket := websocket s;
            streamStartTime := streamStartTime s;
            audioBuffer := audioBuffer s ++ frames_for id tes |}.
Proof.
  revert w s. induction tes as [|te tes IH]; intros w s Hm Hs Hu.
  - simpl. rewrite app_nil_r. now destruct s.
  - simpl in Hu. apply andb_true_iff in Hu as [Hte Hu].
    apply negb_true_iff in Hte.
    change (run w (te :: tes)) with (run (step w te) tes).
    rewrite (IH (step w te) (extend s (frames_for id [te]))); auto.
    + unfold extend. simpl. rewrite <- app_assoc. f_equal. f_equal.
      unfold frames_for. simpl. now rewrite app_nil_r.
    + now apply step_wf_streams.
    + rewrite step_session, Hs by assumption.
      now apply session_step_undisturbed.
Qed.

Lemma frames_buffered_in_order_witness :
  JsMap.get (Some "CA1")
    (mediaStreams (agent
       (run streaming
          [(3%Z, WsMessage "CA1" (media "BBBB"));
           (4%Z, WsMessage "CA2" (media "XXXX"));
           (5%Z, WsError "CA1");
           (6%Z, WsMessage "CA1" Malformed);
           (7%Z, WsMessage "CA1" (Data (Some "media") None));
           (8%Z, WsMessage "CA1" (media "CCCC"))])))
  = Some {| websocket := 7; streamStartTime := 1;
            audioBuffer := [Some "AAAA"; Some "BBBB"; None; Some "CCCC"] |}.
Proof.
  apply (frames_buffered_in_order streaming
           [(3%Z, WsMessage "CA1" (media "BBBB"));
            (4%Z, WsMessage "CA2" (media "XXXX"));
            (5%Z, WsError "CA1");
            (6%Z, WsMessage "CA1" Malformed);
            (7%Z, WsMessage "CA1" (Data (Some "media") None));
            (8%Z, WsMessage "CA1" (media "CCCC"))]
           "CA1"
           {| websocket := 7; streamStartTime := 1;
              audioBuffer := [Some "AAAA"] |});
    reflexivity.
Defined.

(** ** What the listing shows after a request *)

Lemma list_active_cons k v (m : JsMap.t field session) :
  list_active ((k, v) :: m)
  = if active v then entry_of k v :: list_active m else list_active m.
Proof. unfold list_active. simpl. now destruct (active v). Qed.

Lemma about_absent k (m : JsMap.t field session) :
  JsMap.has k m = false -> filter (about k) (list_active m) = [].
Proof.
  induction m as [|[k0 v0] m IH]; [reflexivity|].
  unfold JsMap.has. simpl. intros Hh. rewrite list_active_cons.
  destruct (eqb_of k k0) eqn:E; [discriminate|].
  assert (Hk : about k (entry_of k0 v0) = false).
  { unfold about. simpl. apply eqb_of_neq. intros ->.
    now rewrite eqb_of_refl in E. }
  destruct (active v0); simpl; rewrite ?Hk; apply IH; exact Hh.
Qed.

Lemma not_about_absent k (m : JsMap.t field session) :
  JsMap.has k m = false -> filter (not_about k) (list_active m) = list_active m.
Proof.
  induction m as [|[k0 v0] m IH]; [reflexivity|].
  unfold JsMap.has. simpl. intros Hh. rewrite list_active_cons.
  destruct (eqb_of k k0) eqn:E; [discriminate|].
  assert (Hk : not_about k (entry_of k0 v0) = true).
  { unfold not_about, about. simpl. apply negb_true_iff. apply eqb_of_neq.
    intros ->. now rewrite eqb_of_refl in E. }
  destruct (active v0); simpl; rewrite ?Hk, IH; auto.
Qed.

Lemma about_self k v : about k (entry_of k v) = true.
Proof. unfold about. simpl. apply eqb_of_refl. Qed.

Lemma not_about_self k v : not_about k (entry_of k v) = false.
Proof. unfold not_about. now rewrite about_self. Qed.

Lemma list_active_set k v (m : JsMap.t field session) :
  JsMap.wf m = true ->
  filter (about k) (list_active (JsMap.set k v m))
  = (if active v then [entry_of k v] else [])
  /\ filter (not_about k) (list_active (JsMap.set k v m))
     = filter (not_about k) (list_active m).
Proof.
  induction m as [|[k0 v0] m IH]; simpl.
  - intros _. rewrite list_active_cons.
    destruct (active v); simpl; rewrite ?about_self, ?not_about_self; auto.
  - intros Hwf. apply andb_true_iff in Hwf as [Hno Hwf].
    apply negb_true_iff in Hno.
    destruct (eqb_of k k0) eqn:E.
    + apply eqb_of_true in E. subst k0. rewrite !list_active_cons.
      destruct (active v), (active v0); simpl;
        rewrite ?about_self, ?not_about_self, ?about_absent by assumption;
        auto.
    + assert (Hne : k0 <> k).
      { intros ->. now rewrite eqb_of_refl in E. }
      destruct (IH Hwf) as [IH1 IH2]. rewrite !list_active_cons.
      assert (Hk : about k (entry_of k0 v0) = false).
      { unfold about. simpl. now apply eqb_of_neq. }
      destruct (active v0); simpl; unfold not_about; rewrite ?Hk; simpl;
        fold (not_about k); rewrite ?IH1, ?IH2; auto.
Qed.

(** X4: right after an incoming-call request the call is listed, once,
    with the origin, destination and time of that request; the listed
    entries of all other calls, and their order, are as before.  This
    holds in [index-websocket.js] and in [index.js] alike. *)
Theorem incoming_is_listed (w : World) (b : body) :
  JsMap.wf (callSessions (agent w)) = true ->
  let id := CallSid b in
  let entry := entry_of id (incoming_record b (clock w)) in
  let before := list_active (callSessions (agent w)) in
  let after := list_active (callSessions
                 (agent (exec (IndexWebsocket.post_voice_incoming b) w))) in
  filter (about id) after = [entry]
  /\ In entry after
  /\ filter (not_about id) after = filter (not_about id) before
  /\ callSessions (agent (exec (IndexJs.post_voice_incoming b) w))
     = callSessions (agent (exec (IndexWebsocket.post_voice_incoming b) w)).
Proof.
  intros Hwf id entry before after. subst id entry before after.
  js. set (r := {| from := From b; to := To b; startTime := clock w;
                   active := true |}).
  destruct (list_active_set (CallSid b) r _ Hwf) as [H1 H2].
  simpl in H1. repeat split; auto.
  assert (Hin : In (entry_of (CallSid b) r)
                   (filter (about (CallSid b))
                      (list_active
                         (JsMap.set (CallSid b) r (callSessions (agent w)))))).
  { rewrite H1. now left. }
  apply filter_In in Hin. tauto.
Qed.

Lemma incoming_is_listed_witness :
  filter (about (Some "CA1"))
    (list_active (callSessions
       (agent (exec (IndexWebsocket.post_voice_incoming CA1_again) two_calls))))
  = [entry_of (Some "CA1") (incoming_record CA1_again 3)].
Proof.
  destruct (incoming_is_listed two_calls CA1_again eq_refl) as [H _].
  exact H.
Defined.

Lemma list_active_deactivate k s (m : JsMap.t field session) :
  JsMap.wf m = true ->
  JsMap.get k m = Some s ->
  list_active (JsMap.set k (deactivate s) m)
  = filter (not_about k) (list_active m).
Proof.
  induction m as [|[k0 v0] m IH]; simpl; [discriminate|].
  intros Hwf. apply andb_true_iff in Hwf as [Hno Hwf].
  apply negb_true_iff in Hno.
  destruct (eqb_of k k0) eqn:E.
  - apply eqb_of_true in E. subst k0. intros [= ->].
    rewrite !list_active_cons. simpl.
    destruct (active s); simpl;
      rewrite ?not_about_self, not_about_absent by assumption; reflexivity.
  - intros Hg. rewrite !list_active_cons, IH by assumption.
    assert (Hk : not_about k (entry_of k0 v0) = true).
    { unfold not_about, about. simpl. apply negb_true_iff. apply eqb_of_neq.
      intros ->. now rewrite eqb_of_refl in E. }
    destruct (active v0); simpl; rewrite ?Hk; reflexivity.
Qed.

Lemma end_sessions_listing k (m : JsMap.t field session) :
  JsMap.wf m = true ->
  list_active (end_sessions k m) = filter (not_about k) (list_active m).
Proof.
  intros Hwf. unfold end_sessions.
  destruct (JsMap.get k m) as [s|] eqn:Hg.
  - now apply list_active_deactivate.
  - symmetry. apply not_about_absent. unfold JsMap.has. now rewrite Hg.
Qed.

Lemma endCall_sessions k w :
  callSessions (agent (exec (endCall k) w))
  = end_sessions k (callSessions (agent w))
  /\ mediaStreams (agent (exec (endCall k) w)) = mediaStreams (agent w)
  /\ trace (exec (endCall k) w) = trace w
  /\ clock (exec (endCall k) w) = clock w.
Proof.
  js. unfold end_sessions, JsMap.has.
  destruct (JsMap.get k (callSessions (agent w))); simpl; auto.
Qed.

Lemma end_call_agent b w :
  agent (exec (IndexWebsocket.post_voice_end_call b) w)
  = {| callSessions := end_sessions (CallSid b) (callSessions (agent w));
       mediaStreams := JsMap.delete (CallSid b) (mediaStreams (agent w)) |}
  /\ callSessions (agent (exec (IndexJs.post_voice_end_call b) w))
     = end_sessions (CallSid b) (callSessions (agent w)).
Proof.
  js. unfold end_sessions, JsMap.has.
  destruct (JsMap.get (CallSid b) (callSessions (agent w))); simpl;
    destruct (JsMap.get (CallSid b) (mediaStreams (agent w))); simpl; auto.
Qed.

(** X5: right after an end-call request the call is no longer listed,
    and the listing is otherwise what it was: the same entries for the
    other calls, in the same order.  This holds in [index-websocket.js]
    and in [index.js] alike, whether or not the call was known. *)
Theorem end_call_unlists (w : World) (b : body) :
  JsMap.wf (callSessions (agent w)) = true ->
  let before := list_active (callSessions (agent w)) in
  list_active (callSessions
     (agent (exec (IndexWebsocket.post_voice_end_call b) w)))
  = filter (not_about (CallSid b)) before
  /\ list_active (callSessions
        (agent (exec (IndexJs.post_voice_end_call b) w)))
     = filter (not_about (CallSid b)) before.
Proof.
  intros Hwf before. subst before.
  destruct (end_call_agent b w) as [Ha Hj]. rewrite Ha, Hj. simpl.
  split; now apply end_sessions_listing.
Qed.

Lemma end_call_unlists_witness :
  list_active (callSessions
     (agent (exec (IndexWebsocket.post_voice_end_call CA2) two_calls))) = [].
Proof.
  destruct (end_call_unlists two_calls CA2 eq_refl) as [H _].
  exact H.
Defined.

(** ** Ending a call twice, or a call that is not there *)

Lemma set_set {V} (k : field) (v v' : V) (m : JsMap.t field V) :
  JsMap.set k v (JsMap.set k v' m) = JsMap.set k v m.
Proof.
  induction m as [|[k0 v0] m IH]; simpl.
  - now rewrite eqb_of_refl.
  - destruct (eqb_of k k0) eqn:E; simpl.
    + now rewrite eqb_of_refl.
    + now rewrite E, IH.
Qed.

Lemma end_sessions_idempotent k (m : JsMap.t field session) :
  end_sessions k (end_sessions k m) = end_sessions k m.
Proof.
  unfold end_sessions.
  destruct (JsMap.get k m) as [s|] eqn:Hg.
  - rewrite JsMapFacts.get_set_eq. apply set_set.
  - now rewrite Hg.
Qed.

Lemma delete_idempotent {V} (k : field) (m : JsMap.t field V) :
  JsMap.wf m = true -> JsMap.delete k (JsMap.delete k m) = JsMap.delete k m.
Proof.
  intros Hwf. apply JsMapFacts.delete_absent.
  now apply JsMapFacts.get_delete_eq.
Qed.

Lemma end_call_response b w :
  eval (IndexWebsocket.post_voice_end_call b) w = send_xml end_call_twiml.
Proof.
  js. destruct (JsMap.has (CallSid b) (callSessions (agent w))); simpl.
  - destruct (JsMap.get (CallSid b) (callSessions (agent w))); simpl;
      now destruct (JsMap.get (CallSid b) (mediaStreams (agent w))).
  - now destruct (JsMap.get (CallSid b) (mediaStreams (agent w))).
Qed.

(** X6: the end-call request is idempotent: a second end-call request
    for the same call leaves the agent (call store and stream registry)
    exactly as the first left it and closes no connection; both are
    answered by the same closing document.  For a call that has neither
    a record nor a stream the request changes nothing but the console. *)
Theorem end_call_idempotent (w : World) (b : body) :
  wf_agent (agent w) = true ->
  let once := exec (IndexWebsocket.post_voice_end_call b) w in
  let twice := exec (IndexWebsocket.post_voice_end_call b) once in
  agent twice = agent once
  /\ closes (trace twice) = closes (trace once)
  /\ eval (IndexWebsocket.post_voice_end_call b) once
     = eval (IndexWebsocket.post_voice_end_call b) w
  /\ (JsMap.get (CallSid b) (callSessions (agent w)) = None ->
      JsMap.get (CallSid b) (mediaStreams (agent w)) = None ->
      once = logged (end_call_line b) w).
Proof.
  intros Hwf once twice. subst once twice.
  apply wf_agent_split in Hwf as [Hc Hm].
  repeat match goal with |- _ /\ _ => split end.
  - rewrite !(proj1 (end_call_agent b _)). simpl.
    now rewrite end_sessions_idempotent, delete_idempotent.
  - assert (Hgone : JsMap.get (CallSid b)
              (mediaStreams (agent (exec (IndexWebsocket.post_voice_end_call b) w)))
              = None).
    { rewrite (proj1 (end_call_agent b w)). simpl.
      now apply JsMapFacts.get_delete_eq. }
    generalize dependent (exec (IndexWebsocket.post_voice_end_call b) w).
    intros w1 Hgone. js.
    destruct (JsMap.has (CallSid b) (callSessions (agent w1))); simpl.
    + destruct (JsMap.get (CallSid b) (callSessions (agent w1))); simpl;
        rewrite Hgone; simpl; rewrite !closes_app; simpl;
        now rewrite !app_nil_r.
    + rewrite Hgone. simpl. rewrite !closes_app. simpl. now rewrite !app_nil_r.
  - now rewrite !end_call_response.
  - intros Hr Hs. js. unfold JsMap.has. rewrite Hr. simpl. rewrite Hs. simpl.
    rewrite JsMapFacts.delete_absent by assumption.
    unfold logged, end_call_line. now destruct w as [[cs ms] c t].
Qed.

Lemma end_call_idempotent_witness :
  agent (exec (IndexWebsocket.post_voice_end_call CA1)
           (exec (IndexWebsocket.post_voice_end_call CA1) streaming))
  = agent (exec (IndexWebsocket.post_voice_end_call CA1) streaming)
  /\ closes (trace (exec (IndexWebsocket.post_voice_end_call CA1)
                      (exec (IndexWebsocket.post_voice_end_call CA1) streaming)))
     = [7].
Proof.
  destruct (end_call_idempotent streaming CA1 eq_refl) as (H1 & H2 & _).
  split; [exact H1|]. rewrite H2. reflexivity.
Defined.

(** ** The order of the call store *)

Lemma step_end_call w now b :
  step w (now, PostEndCall b)
  = exec (IndexWebsocket.post_voice_end_call b) (exec (at_time now) w).
Proof.
  unfold step, handle_event, exec, eval, bind, ret, at_time. simpl.
  now destruct (IndexWebsocket.post_voice_end_call b
                  {| agent := agent w; clock := now; trace := trace w |}).
Qed.

Lemma keys_set {V} (k : field) (v : V) (m : JsMap.t field V) :
  keys (JsMap.set k v m)
  = if JsMap.has k m then keys m else keys m ++ [k].
Proof.
  unfold keys, JsMap.has.
  induction m as [|[k0 v0] m IH]; simpl; [reflexivity|].
  destruct (eqb_of k k0) eqn:E; simpl.
  - apply eqb_of_true in E. now subst k0.
  - rewrite IH. now destruct (JsMap.get k m).
Qed.

Lemma step_keys w te :
  exists l, keys (callSessions (agent (step w te)))
            = keys (callSessions (agent w)) ++ l
            /\ forall k, In k l -> announced k [te].
Proof.
  destruct te as [now e].
  assert (Hsame : forall w', callSessions (agent w') = callSessions (agent w) ->
            exists l, keys (callSessions (agent w'))
                      = keys (callSessions (agent w)) ++ l
                      /\ forall k, In k l -> announced k [(now, e)]).
  { intros w' ->. exists []. split; [now rewrite app_nil_r|intros k []]. }
  destruct e as [b|b|b|b| |url socket|id m|id|id].
  - js. rewrite keys_set.
    destruct (JsMap.has (CallSid b) (callSessions (agent w))).
    + exists []. split; [now rewrite app_nil_r|intros k []].
    + exists [CallSid b]. split; [reflexivity|].
      intros k [<-|[]]. exists now, b. split; [now left|reflexivity].
  - apply Hsame. js; reflexivity.
  - rewrite step_end_call, (proj1 (end_call_agent b _)).
    simpl. unfold end_sessions.
    destruct (JsMap.get (CallSid b) (callSessions (agent w))) eqn:Hg.
    + rewrite keys_set. unfold JsMap.has. rewrite Hg.
      exists []. split; [now rewrite app_nil_r|intros k []].
    + exists []. split; [now rewrite app_nil_r|intros k []].
  - apply Hsame. reflexivity.
  - apply Hsame. reflexivity.
  - apply Hsame. js. now destruct (match_media url).
  - apply Hsame. symmetry.
    js. destruct m as [|ev p]; simpl; [reflexivity|].
    destruct (eqb_of ev (Some "start")); simpl; [reflexivity|].
    destruct (eqb_of ev (Some "media")); simpl.
    + now destruct (JsMap.get (Some id) (mediaStreams (agent w))).
    + destruct (eqb_of ev (Some "stop")); simpl; [|reflexivity].
      now destruct (JsMap.get (Some id) (mediaStreams (agent w))).
  - apply Hsame. reflexivity.
  - apply Hsame. js.
    now destruct (JsMap.get (Some id) (mediaStreams (agent w))).
Qed.

(** X7: the call store never drops or reorders call identifiers: after
    any history its identifiers are those it had, in the same order,
    followed by new ones, each of which was announced by an incoming-call
    request of that history.  (So the listing keeps the calls in the
    order in which they were first announced.) *)
Theorem store_keeps_order (w : World) (tes : list (Z * event)) :
  exists l, keys (callSessions (agent (run w tes)))
            = keys (callSessions (agent w)) ++ l
            /\ forall k, In k l -> announced k tes.
Proof.
  revert w. induction tes as [|te tes IH]; intros w.
  - exists []. split; [now rewrite app_nil_r|intros k []].
  - destruct (step_keys w te) as (l1 & H1 & A1).
    destruct (IH (step w te)) as (l2 & H2 & A2).
    exists (l1 ++ l2). split.
    + change (run w (te :: tes)) with (run (step w te) tes).
      now rewrite H2, H1, app_assoc.
    + intros k Hk. apply in_app_or in Hk as [Hk|Hk].
      * destruct (A1 k Hk) as (t & b & [E|[]] & Hb).
        exists t, b. split; [left; exact E|exact Hb].
      * destruct (A2 k Hk) as (t & b & Hin & Hb).
        exists t, b. split; [right; exact Hin|exact Hb].
Qed.

(** ** Connections are closed only after they were accepted *)

Lemma acked_app t1 t2 : acked (t1 ++ t2) = acked t2 ++ acked t1.
Proof.
  induction t1 as [|e t1 IH]; simpl; [now rewrite app_nil_r|].
  destruct e; auto. now rewrite IH, app_assoc.
Qed.

Lemma closes_acked_app t1 : forall seen t2,
  closes_acked seen (t1 ++ t2)
  = closes_acked seen t1 && closes_acked (acked t1 ++ seen) t2.
Proof.
  induction t1 as [|e t1 IH]; intros seen t2; simpl; [reflexivity|].
  destruct e; auto.
  - now rewrite IH, andb_assoc.
  - now rewrite IH, <- app_assoc.
Qed.

Lemma existsb_In h l : In h l -> existsb (Nat.eqb h) l = true.
Proof.
  intros Hin. apply existsb_exists. exists h. split; [exact Hin|].
  apply Nat.eqb_refl.
Qed.

Lemma In_existsb h l : existsb (Nat.eqb h) l = true -> In h l.
Proof.
  intros H. apply existsb_exists in H as (x & Hin & E).
  apply Nat.eqb_eq in E. now subst x.
Qed.

Lemma In_sockets_set k v (m : JsMap.t field stream) h :
  In h (sockets (JsMap.set k v m)) -> h = websocket v \/ In h (sockets m).
Proof.
  unfold sockets. induction m as [|[k0 v0] m IH]; simpl.
  - intros [<-|[]]. now left.
  - destruct (eqb_of k k0); simpl.
    + intros [<-|H]; auto.
    + intros [<-|H]; auto. destruct (IH H); auto.
Qed.

Lemma In_sockets_delete k (m : JsMap.t field stream) h :
  In h (sockets (JsMap.delete k m)) -> In h (sockets m).
Proof.
  unfold sockets. induction m as [|[k0 v0] m IH]; simpl; auto.
  destruct (eqb_of k k0); simpl; auto.
  intros [<-|H]; auto.
Qed.

Lemma get_In_sockets k (m : JsMap.t field stream) s :
  JsMap.get k m = Some s -> In (websocket s) (sockets m).
Proof.
  unfold sockets. induction m as [|[k0 v0] m IH]; simpl; [discriminate|].
  destruct (eqb_of k k0).
  - intros [= ->]. now left.
  - intros H. right. auto.
Qed.

Lemma close_keeps_accepted_only k w :
  accepted_only w -> accepted_only (exec (closeMediaStream k) w).
Proof.
  intros [H1 H2]. unfold accepted_only. js.
  destruct (JsMap.get k (mediaStreams (agent w))) as [s|] eqn:Hg; simpl.
  - rewrite closes_acked_app, acked_app, H1. simpl. rewrite app_nil_r.
    rewrite existsb_In by eauto using get_In_sockets.
    split; [reflexivity|]. intros h Hh. apply In_sockets_delete in Hh. auto.
  - split; [assumption|]. intros h Hh. apply In_sockets_delete in Hh. auto.
Qed.

Lemma log_keeps_accepted_only line w :
  accepted_only w -> accepted_only (exec (console_log line) w)
                     /\ accepted_only (exec (console_error line) w).
Proof.
  intros [H1 H2]. unfold accepted_only. js.
  rewrite !closes_acked_app, !acked_app, H1. simpl. auto.
Qed.

Lemma retime_keeps_accepted_only now w :
  accepted_only w -> accepted_only (exec (at_time now) w).
Proof. intros H. exact H. Qed.

Lemma step_accepted_only w te : accepted_only w -> accepted_only (step w te).
Proof.
  intros Hw. destruct te as [now e].
  pose proof (retime_keeps_accepted_only now w Hw) as Hn.
  destruct Hw as [H1 H2].
  destruct e as [b|b|b|b| |url socket|id m|id|id].
  - unfold accepted_only. js.
    rewrite closes_acked_app, acked_app, H1. simpl. auto.
  - unfold accepted_only. js;
      rewrite ?closes_acked_app, ?acked_app, H1; simpl;
      rewrite ?app_nil_r; auto.
  - rewrite step_end_call. unfold IndexWebsocket.post_voice_end_call.
    apply (log_keeps_accepted_only (end_call_line b)) in Hn as [Hn _].
    unfold end_call_line in Hn.
    set (w1 := exec (console_log ("Ending call - CallSid: " ++ show (CallSid b)))
                 (exec (at_time now) w)) in *.
    assert (Hw2 : accepted_only (exec (endCall (CallSid b)) w1)).
    { destruct Hn as [G1 G2].
      destruct (endCall_sessions (CallSid b) w1) as (_ & Hm & Ht & _).
      unfold accepted_only. now rewrite Hm, Ht. }
    apply (close_keeps_accepted_only (CallSid b)) in Hw2.
    unfold exec, bind, ret in *.
    change (console_log ("Ending call - CallSid: " ++ show (CallSid b))
              (snd (at_time now w))) with (tt, w1).
    cbv beta iota.
    destruct (endCall (CallSid b) w1) as [u w2]. simpl in *.
    destruct (closeMediaStream (CallSid b) w2) as [u' w3]. simpl in *.
    exact Hw2.
  - unfold accepted_only. js.
    rewrite closes_acked_app, acked_app, H1. simpl. auto.
  - split; assumption.
  - unfold accepted_only. js.
    destruct (match_media url) as [id|]; simpl.
    + rewrite !closes_acked_app, !acked_app, H1. simpl. split; [reflexivity|].
      intros h Hh. apply In_sockets_set in Hh as [->|Hh]; simpl; auto.
    + rewrite closes_acked_app, acked_app, H1. simpl. auto.
  - destruct m as [|ev p].
    + apply (log_keeps_accepted_only "WebSocket message error:") in Hn
        as [_ Hn]. exact Hn.
    + unfold accepted_only. js.
      destruct (eqb_of ev (Some "start")); simpl.
      * rewrite closes_acked_app, acked_app, H1. simpl. auto.
      * destruct (eqb_of ev (Some "media")); simpl.
        -- destruct (JsMap.get (Some id) (mediaStreams (agent w))) as [s|] eqn:Hg;
             simpl; [|auto].
           split; [assumption|].
           intros h Hh. apply In_sockets_set in Hh as [->|Hh]; simpl; auto.
           apply H2. eauto using get_In_sockets.
        -- destruct (eqb_of ev (Some "stop")); simpl; [|auto].
           destruct (JsMap.get (Some id) (mediaStreams (agent w))) as [s|] eqn:Hg;
             simpl.
           ++ rewrite !closes_acked_app, !acked_app, H1. simpl.
              rewrite app_nil_r.
              rewrite existsb_In by (apply H2; eauto using get_In_sockets).
              split; [reflexivity|].
              intros h Hh. apply In_sockets_delete in Hh. auto.
           ++ rewrite closes_acked_app, acked_app, H1. simpl.
              split; [reflexivity|].
              intros h Hh. apply In_sockets_delete in Hh. auto.
  - apply (log_keeps_accepted_only ("WebSocket error for " ++ id ++ ":")) in Hn
      as [_ Hn]. exact Hn.
  - apply (log_keeps_accepted_only ("WebSocket closed for media stream: " ++ id))
      in Hn as [Hn _].
    apply (close_keeps_accepted_only (Some id)) in Hn.
    unfold step, handle_event, ws_on_close, exec, bind, ret in *. simpl in *.
    destruct (closeMediaStream (Some id) _) as [u w3]. simpl in *.
    exact Hn.
Qed.

Lemma run_accepted_only tes : forall w,
  accepted_only w -> accepted_only (run w tes).
Proof.
  induction tes as [|te tes IH]; intros w Hw; simpl; auto.
  apply IH. now apply step_accepted_only.
Qed.

Lemma closes_acked_split t1 : forall seen h t2,
  closes_acked seen (t1 ++ WsClose h :: t2) = true -> In h (acked t1 ++ seen).
Proof.
  intros seen h t2 H. rewrite closes_acked_app in H.
  apply andb_true_iff in H as [_ H]. simpl in H.
  apply andb_true_iff in H as [H _]. now apply In_existsb.
Qed.

Lemma In_acked h t : In h (acked t) -> exists id, In (WsSend h (Connected id)) t.
Proof.
  induction t as [|e t IH]; simpl; [intros []|].
  destruct e as [l|l|h'|h' f|h']; try (intros H; destruct (IH H) as [id Hid];
    exists id; now right).
  intros H. apply in_app_or in H as [H|[<-|[]]].
  - destruct (IH H) as [id Hid]. exists id. now right.
  - destruct f as [id]. exists id. now left.
Qed.

(** X8: the agent never closes a connection it did not accept.  In every
    state reached from a fresh agent, each [close()] in the trace is on a
    socket on which the [connected] acknowledgment was sent earlier in
    the trace, and every socket held in the registry was acknowledged. *)
Theorem closes_only_accepted (now : Z) (tes : list (Z * event)) :
  let w := run (initial now) tes in
  (forall t1 h t2, trace w = t1 ++ WsClose h :: t2 ->
     exists id, In (WsSend h (Connected id)) t1)
  /\ (forall k s, JsMap.get k (mediaStreams (agent w)) = Some s ->
        exists id, In (WsSend (websocket s) (Connected id)) (trace w)).
Proof.
  intros w.
  assert (Hw : accepted_only w).
  { apply run_accepted_only. split; [reflexivity|intros h []]. }
  destruct Hw as [H1 H2]. split.
  - intros t1 h t2 Ht. rewrite Ht in H1.
    apply closes_acked_split in H1. rewrite app_nil_r in H1.
    now apply In_acked.
  - intros k s Hg. apply In_acked. apply H2. eauto using get_In_sockets.
Qed.

(** ** The HTTP interface does not see the streams *)

Lemma stream_event_invisible w t e :
  as_request e = None ->
  callSessions (agent (step w (t, e))) = callSessions (agent w)
  /\ respond w (t, e) = None.
Proof.
  destruct e as [b|b|b|b| |url socket|id m|id|id]; try discriminate; intros _.
  - unfold respond. js. now destruct (match_media url).
  - unfold respond. js. destruct m as [|ev p]; simpl; [auto|].
    destruct (eqb_of ev (Some "start")); simpl; [auto|].
    destruct (eqb_of ev (Some "media")); simpl.
    + now destruct (JsMap.get (Some id) (mediaStreams (agent w))).
    + destruct (eqb_of ev (Some "stop")); simpl; [|auto].
      now destruct (JsMap.get (Some id) (mediaStreams (agent w))).
  - unfold respond. js. auto.
  - unfold respond. js.
    now destruct (JsMap.get (Some id) (mediaStreams (agent w))).
Qed.

Lemma request_simulated w0 w t e r :
  as_request e = Some r ->
  callSessions (agent w0) = callSessions (agent w) ->
  callSessions (agent (IndexJs_step w0 (t, r)))
  = callSessions (agent (step w (t, e)))
  /\ mediaStreams (agent (IndexJs_step w0 (t, r))) = mediaStreams (agent w0)
  /\ respond w (t, e) = Some (IndexJs_respond w0 (t, r)).
Proof.
  intros He Hs.
  destruct e as [b|b|b|b| |url socket|id m|id|id]; try discriminate;
    injection He as <-; unfold IndexJs_step, IndexJs_respond, IndexJs_handle,
      respond; simpl fst; simpl snd.
  - js. now rewrite Hs.
  - js; auto.
  - js. rewrite Hs.
    destruct (JsMap.has (CallSid b) (callSessions (agent w))); simpl.
    + destruct (JsMap.get (CallSid b) (callSessions (agent w))); simpl;
        destruct (JsMap.get (CallSid b) (mediaStreams (agent w))); simpl;
        rewrite ?Hs; auto.
    + destruct (JsMap.get (CallSid b) (mediaStreams (agent w))); simpl;
        rewrite ?Hs; auto.
  - js; auto.
  - js. now rewrite Hs.
Qed.

(** X9: the HTTP interface of [index-websocket.js] behaves as
    [index.js]: whatever upgrade requests, WebSocket messages, errors and
    close notifications are interleaved with the HTTP requests, the
    responses to the HTTP requests and the resulting call store are those
    [index.js] gives for the HTTP requests alone (and [index.js] never
    touches a stream registry). *)
Theorem http_interface_ignores_streams
    (tes : list (Z * event)) (w0 w : World) :
  callSessions (agent w0) = callSessions (agent w) ->
  IndexJs_responses w0 (requests_of tes) = responses w tes
  /\ callSessions (agent (IndexJs_run w0 (requests_of tes)))
     = callSessions (agent (run w tes))
  /\ mediaStreams (agent (IndexJs_run w0 (requests_of tes)))
     = mediaStreams (agent w0).
Proof.
  revert w0 w. induction tes as [|[t e] tes IH]; intros w0 w Hs.
  - simpl. auto.
  - change (run w ((t, e) :: tes)) with (run (step w (t, e)) tes).
    simpl requests_of. simpl responses.
    destruct (as_request e) as [r|] eqn:He.
    + destruct (request_simulated w0 w t e r He Hs) as (H1 & H2 & H3).
      rewrite H3. simpl.
      change (IndexJs_run w0 ((t, r) :: requests_of tes))
        with (IndexJs_run (IndexJs_step w0 (t, r)) (requests_of tes)).
      destruct (IH _ _ H1) as (I1 & I2 & I3).
      rewrite I1, I2, I3, H2. auto.
    + destruct (stream_event_invisible w t e He) as [H1 H2].
      rewrite H2. apply IH. congruence.
Qed.

Lemma http_interface_ignores_streams_witness :
  responses (initial 0)
    [(1%Z, PostIncoming CA1); (2%Z, Upgrade "/media/CA1" 7);
     (3%Z, WsMessage "CA1" (media "AAAA")); (4%Z, GetCalls);
     (5%Z, WsClosed "CA1"); (6%Z, PostEndCall CA1); (7%Z, GetCalls)]
  = IndexJs_responses (initial 0)
      [(1%Z, ReqIncoming CA1); (4%Z, ReqCalls); (6%Z, ReqEndCall CA1);
       (7%Z, ReqCalls)].
Proof.
  symmetry.
  apply (http_interface_ignores_streams
           [(1%Z, PostIncoming CA1); (2%Z, Upgrade "/media/CA1" 7);
            (3%Z, WsMessage "CA1" (media "AAAA")); (4%Z, GetCalls);
            (5%Z, WsClosed "CA1"); (6%Z, PostEndCall CA1); (7%Z, GetCalls)]
           (initial 0) (initial 0) eq_refl).
Defined.

(** ** The media-stream webhook *)

Lemma strip_prefix_self p rest : strip_prefix p (p ++ rest) = Some rest.
Proof. now apply strip_prefix_spec. Qed.

Lemma replace_first_prefix pat rep rest :
  replace_first pat rep (pat ++ rest) = (rep ++ rest)%string.
Proof.
  destruct (pat ++ rest)%string eqn:E; simpl;
    rewrite <- E, strip_prefix_self; reflexivity.
Qed.

Lemma replace_first_absent pat rep : forall s,
  ~ contains pat s -> replace_first pat rep s = s.
Proof.
  induction s as [|c s IH]; intros Hno; simpl.
  - destruct (strip_prefix pat EmptyString) as [rest|] eqn:E; [|reflexivity].
    exfalso. apply Hno. apply strip_prefix_spec in E.
    exists EmptyString, rest. exact E.
  - destruct (strip_prefix pat (String c s)) as [rest|] eqn:E.
    + exfalso. apply Hno. apply strip_prefix_spec in E.
      exists EmptyString, rest. exact E.
    + f_equal. apply IH. intros (pre & post & ->). apply Hno.
      exists (String c pre), post. reflexivity.
Qed.

(** X10: the media-stream webhook never changes the agent.  With
    [DEPLOYMENT_URL] unset the handler throws and the error middleware
    answers 500 "Internal server error" after the request and the error
    were written to the console.  Otherwise the stream URL is the
    deployment URL with its first "http" replaced by "ws" (so [https://h]
    gives [wss://h], and a URL without "http" is kept as it is), followed
    by [/media/] and the call identifier ([undefined] for a request
    without one).  When that URL holds no character XML forbids, the
    answer is a 200 [text/xml] document naming it; when it holds one,
    the builder throws and the error middleware answers 500 as well. *)
Theorem media_stream_webhook (env : field) (b : body) (w : World) :
  agent (exec (post_voice_media_stream env b) w) = agent w
  /\ post_voice_media_stream None b w
     = (Thrown {| status := 500; contentType := None;
                  content := ErrorJson "Internal server error"
                               UndefinedReplace |},
        exec (console_error "Error:") (logged (media_stream_line b) w))
  /\ (forall base, legal_text (stream_url base (CallSid b)) = true ->
        post_voice_media_stream (Some base) b w
        = (StreamXml 200 (Some "text/xml")
             (StartStream (stream_url base (CallSid b))),
           logged (media_stream_line b) w))
  /\ (forall base, legal_text (stream_url base (CallSid b)) = false ->
        post_voice_media_stream (Some base) b w
        = (Thrown {| status := 500; contentType := None;
                     content := ErrorJson "Internal server error"
                       (InvalidCharacter (stream_url base (CallSid b))) |},
           exec (console_error "Error:") (logged (media_stream_line b) w)))
  /\ (forall rest,
        stream_url ("http" ++ rest) (CallSid b)
        = ("ws" ++ rest ++ "/media/" ++ show (CallSid b))%string)
  /\ (forall base, ~ contains "http" base ->
        stream_url base (CallSid b)
        = (base ++ "/media/" ++ show (CallSid b))%string)
  /\ (forall base, CallSid b = None ->
        stream_url base (CallSid b)
        = (replace_first "http" "ws" base ++ "/media/undefined")%string).
Proof.
  repeat match goal with |- _ /\ _ => split end.
  - unfold post_voice_media_stream, media_stream_handler, error_middleware,
      start_stream.
    destruct env as [base|]; [|reflexivity].
    js. now destruct (legal_text (stream_url base (CallSid b))).
  - reflexivity.
  - intros base Hl.
    unfold post_voice_media_stream, media_stream_handler, start_stream.
    js. now rewrite Hl.
  - intros base Hl.
    unfold post_voice_media_stream, media_stream_handler, start_stream.
    js. now rewrite Hl.
  - intros rest. unfold stream_url.
    rewrite (replace_first_prefix "http" "ws" rest). reflexivity.
  - intros base Hno. unfold stream_url. now rewrite replace_first_absent.
  - intros base ->. reflexivity.
Qed.

Lemma media_stream_webhook_witness :
  post_voice_media_stream (Some "https://websocketz-4-life.railway.app")
    CA1 (initial 0)
  = (StreamXml 200 (Some "text/xml")
       (StartStream "wss://websocketz-4-life.railway.app/media/CA1"),
     logged (media_stream_line CA1) (initial 0))
  /\ fst (post_voice_media_stream (Some "https://websocketz-4-life.railway.app")
            body_control_id (initial 0))
     = Thrown (error_response
         (InvalidCharacter
            ("wss://websocketz-4-life.railway.app/media/CA" ++ control_char)))
  /\ stream_url "plain://example.org" (Some "CA1")
     = "plain://example.org/media/CA1".
Proof.
  destruct (media_stream_webhook None CA1 (initial 0))
    as (_ & _ & Hok & _ & _ & Hkeep & _).
  destruct (media_stream_webhook None body_control_id (initial 0))
    as (_ & _ & _ & Hbad & _).
  split; [|split].
  - apply (Hok "https://websocketz-4-life.railway.app"). reflexivity.
  - rewrite (Hbad "https://websocketz-4-life.railway.app"); reflexivity.
  - apply (Hkeep "plain://example.org").
    intros (pre & post & E).
    repeat (destruct pre as [|? pre]; [discriminate E|injection E as _ E]).
    destruct pre; discriminate E.
Defined.

(** ** The AI model manager *)

Section AIFacts.
Context {number : Type} (nonzero : number -> bool).
Implicit Types (cfg : AI.config) (net : AI.call -> AI.outcome number).

(** X11: each of the three methods sends a request only when its API key
    is configured, and then exactly one, carrying that key as bearer
    token and the configured model; with the key unset or empty nothing
    is sent and the result is [null].  The synthesis result is [null]
    exactly when the key is missing or the request itself fails. *)
Theorem requests_need_a_key cfg net (input : string) :
  let kimi := AI.generateWithKimi nonzero cfg net input in
  let sonic := AI.synthesizeWithSonic3 cfg net input in
  let whisper := AI.transcribeWithInkWhisper nonzero cfg net input in
  AI.fetches (fst kimi)
  = (if truthy (AI.groq_apiKey cfg)
     then [AI.Completions (AI.bearer (AI.groq_apiKey cfg))
             (AI.groq_model cfg) input]
     else [])
  /\ AI.fetches (fst sonic)
     = (if truthy (AI.cartesia_apiKey cfg)
        then [AI.Synthesize (AI.bearer (AI.cartesia_apiKey cfg)) input
                (AI.cartesia_model cfg) (AI.cartesia_voiceId cfg)]
        else [])
  /\ AI.fetches (fst whisper)
     = (if truthy (AI.inkWhisper_apiKey cfg)
        then [AI.Transcribe (AI.bearer (AI.inkWhisper_apiKey cfg)) input
                (AI.inkWhisper_model cfg)]
        else [])
  /\ (truthy (AI.groq_apiKey cfg) = false -> snd kimi = AI.JNull)
  /\ (truthy (AI.inkWhisper_apiKey cfg) = false -> snd whisper = AI.JNull)
  /\ (snd sonic = None <->
      truthy (AI.cartesia_apiKey cfg) = false
      \/ net (AI.Synthesize (AI.bearer (AI.cartesia_apiKey cfg)) input
                (AI.cartesia_model cfg) (AI.cartesia_voiceId cfg))
         = AI.Rejects).
Proof.
  intros kimi sonic whisper. subst kimi sonic whisper.
  unfold AI.generateWithKimi, AI.synthesizeWithSonic3,
    AI.transcribeWithInkWhisper.
  repeat match goal with |- _ /\ _ => split end.
  - destruct (truthy (AI.groq_apiKey cfg)); simpl; [|reflexivity].
    destruct (net _) as [|[[| | | | |]|]]; reflexivity.
  - destruct (truthy (AI.cartesia_apiKey cfg)); simpl; [|reflexivity].
    destruct (net _); reflexivity.
  - destruct (truthy (AI.inkWhisper_apiKey cfg)); simpl; [|reflexivity].
    destruct (net _) as [|[[| | | | |]|]]; reflexivity.
  - intros ->. reflexivity.
  - intros ->. reflexivity.
  - destruct (truthy (AI.cartesia_apiKey cfg)); simpl.
    + destruct (net _) eqn:E; simpl; split; auto; try discriminate.
      intros [H|H]; discriminate.
    + split; auto.
Qed.

Lemma or_null_cases (v : option (AI.json number)) :
  (AI.or_null nonzero v = AI.JNull
   \/ (v = Some (AI.or_null nonzero v)
       /\ AI.truthy_value nonzero (Some (AI.or_null nonzero v)) = true)).
Proof.
  unfold AI.or_null. destruct v as [x|]; [|now left].
  destruct (AI.truthy_value nonzero (Some x)) eqn:E; auto.
Qed.


(** X12: a completion or a transcript is never a falsy value: the result
    is [null] or a value JavaScript holds true, so never the empty
    string; it is other than [null] only if the key is configured and
    the response parsed to JSON that holds it (at
    [choices[0].message.content], resp. [text]); and a response that
    holds a non-empty string there gives that string. *)
Theorem completion_or_null cfg net (input : string) :
  let kimi := snd (AI.generateWithKimi nonzero cfg net input) in
  let whisper := snd (AI.transcribeWithInkWhisper nonzero cfg net input) in
  let ask := AI.Completions (AI.bearer (AI.groq_apiKey cfg))
               (AI.groq_model cfg) input in
  let hear := AI.Transcribe (AI.bearer (AI.inkWhisper_apiKey cfg)) input
                (AI.inkWhisper_model cfg) in
  (kimi = AI.JNull \/ AI.truthy_value nonzero (Some kimi) = true)
  /\ (whisper = AI.JNull \/ AI.truthy_value nonzero (Some whisper) = true)
  /\ kimi <> AI.JStr EmptyString
  /\ whisper <> AI.JStr EmptyString
  /\ (kimi <> AI.JNull ->
      truthy (AI.groq_apiKey cfg) = true
      /\ exists data, net ask = AI.Resolves (Some data)
                      /\ AI.completion data = Some kimi)
  /\ (whisper <> AI.JNull ->
      truthy (AI.inkWhisper_apiKey cfg) = true
      /\ exists data, net hear = AI.Resolves (Some data)
                      /\ AI.member "text" data = Some whisper)
  /\ (forall data first rest message s,
        truthy (AI.groq_apiKey cfg) = true ->
        net ask = AI.Resolves (Some data) ->
        AI.member "choices" data = Some (AI.JArr (first :: rest)) ->
        AI.member "message" first = Some message ->
        AI.member "content" message = Some (AI.JStr s) ->
        s <> EmptyString ->
        kimi = AI.JStr s)
  /\ (forall data s,
        truthy (AI.inkWhisper_apiKey cfg) = true ->
        net hear = AI.Resolves (Some data) ->
        AI.member "text" data = Some (AI.JStr s) ->
        s <> EmptyString ->
        whisper = AI.JStr s).
Proof.
  intros kimi whisper ask hear.
  assert (Hk : kimi = AI.JNull
               \/ (truthy (AI.groq_apiKey cfg) = true
                   /\ exists data, net ask = AI.Resolves (Some data)
                        /\ AI.completion data = Some kimi
                        /\ AI.truthy_value nonzero (Some kimi) = true)).
  { subst kimi. unfold AI.generateWithKimi. fold ask.
    destruct (truthy (AI.groq_apiKey cfg)); simpl; [|now left].
    destruct (net ask) as [|[data|]] eqn:E; simpl; [now left| |now left].
    destruct data; simpl; try (now left); match goal with
      | |- AI.or_null ?nz ?v = _ \/ _ =>
          destruct (or_null_cases v) as [H|[H1 H2]];
          [left; exact H
          |right; split; [reflexivity|]; eexists; split; [reflexivity|];
           split; [exact H1|exact H2]]
      end. }
  assert (Hw : whisper = AI.JNull
               \/ (truthy (AI.inkWhisper_apiKey cfg) = true
                   /\ exists data, net hear = AI.Resolves (Some data)
                        /\ AI.member "text" data = Some whisper
                        /\ AI.truthy_value nonzero (Some whisper) = true)).
  { subst whisper. unfold AI.transcribeWithInkWhisper. fold hear.
    destruct (truthy (AI.inkWhisper_apiKey cfg)); simpl; [|now left].
    destruct (net hear) as [|[data|]] eqn:E; simpl; [now left| |now left].
    destruct data; simpl; try (now left); match goal with
      | |- AI.or_null ?nz ?v = _ \/ _ =>
          destruct (or_null_cases v) as [H|[H1 H2]];
          [left; exact H
          |right; split; [reflexivity|]; eexists; split; [reflexivity|];
           split; [exact H1|exact H2]]
      end. }
  repeat match goal with |- _ /\ _ => split end.
  - destruct Hk as [H|(_ & _ & _ & _ & H)]; auto.
  - destruct Hw as [H|(_ & _ & _ & _ & H)]; auto.
  - destruct Hk as [H|(_ & _ & _ & _ & H)]; intros E; rewrite E in H;
      discriminate.
  - destruct Hw as [H|(_ & _ & _ & _ & H)]; intros E; rewrite E in H;
      discriminate.
  - intros Hn. destruct Hk as [H|(H1 & data & H2 & H3 & _)]; [contradiction|].
    split; [assumption|]. now exists data.
  - intros Hn. destruct Hw as [H|(H1 & data & H2 & H3 & _)]; [contradiction|].
    split; [assumption|]. now exists data.
  - intros data first rest message s Hkey Hnet Hc Hm Hs Hne.
    subst kimi. unfold AI.generateWithKimi. fold ask.
    rewrite Hkey, Hnet. simpl.
    assert (Hcomp : AI.completion data = Some (AI.JStr s)).
    { unfold AI.completion. rewrite Hc. simpl.
      destruct first; try discriminate Hm. simpl. simpl in Hm. rewrite Hm.
      destruct message; try discriminate Hs. exact Hs. }
    destruct data; try discriminate Hc.
    rewrite Hcomp. unfold AI.or_null. simpl.
    destruct s; [congruence|reflexivity].
  - intros data s Hkey Hnet Ht Hne.
    subst whisper. unfold AI.transcribeWithInkWhisper. fold hear.
    rewrite Hkey, Hnet. simpl.
    destruct data; try discriminate Ht.
    rewrite Ht. unfold AI.or_null. simpl.
    destruct s; [congruence|reflexivity].
Qed.

End AIFacts.

Lemma completion_or_null_witness :
  snd (AI.generateWithKimi nat_nonzero groq_only answers_hi "Say hi")
  = AI.JStr "Hi".
Proof.
  destruct (completion_or_null nat_nonzero groq_only answers_hi "Say hi")
    as (_ & _ & _ & _ & _ & _ & H & _).
  eapply H; try reflexivity. discriminate.
Defined.

Lemma requests_need_a_key_witness :
  snd (AI.generateWithKimi nat_nonzero no_keys answers_hi "Say hi") = AI.JNull
  /\ AI.fetches (fst (AI.synthesizeWithSonic3 no_keys answers_hi "Hello")) = [].
Proof.
  destruct (requests_need_a_key nat_nonzero no_keys answers_hi "Say hi")
    as (_ & _ & _ & H & _).
  destruct (requests_need_a_key nat_nonzero no_keys answers_hi "Hello")
    as (_ & H2 & _).
  split; [apply H; reflexivity|exact H2].
Defined.

(** ** No call is listed twice *)

Lemma listed_is_stored k (m : JsMap.t field session) :
  In k (map callSid (list_active m)) -> JsMap.has k m = true.
Proof.
  induction m as [|[k0 v0] m IH]; [intros []|].
  rewrite list_active_cons. unfold JsMap.has in *. simpl.
  destruct (eqb_of k k0) eqn:E; [reflexivity|].
  intros Hin. apply IH. destruct (active v0); [|exact Hin].
  destruct Hin as [Hk|Hin]; [|exact Hin].
  simpl in Hk. subst k0. now rewrite eqb_of_refl in E.
Qed.

Lemma wf_listing_NoDup (m : JsMap.t field session) :
  JsMap.wf m = true -> NoDup (map callSid (list_active m)).
Proof.
  induction m as [|[k0 v0] m IH]; simpl; [intros _; constructor|].
  intros Hwf. apply andb_true_iff in Hwf as [Hno Hwf].
  apply negb_true_iff in Hno. rewrite list_active_cons.
  destruct (active v0); [|auto]. simpl. constructor; [|auto].
  intros Hin. apply listed_is_stored in Hin. congruence.
Qed.

(** X13: in every state reached from a fresh agent the active-calls
    listing names no call identifier twice, and its count is at most the
    number of calls ever announced to the store. *)
Theorem listing_has_no_duplicates (now : Z) (tes : list (Z * event)) :
  let sessions := callSessions (agent (run (initial now) tes)) in
  NoDup (map callSid (list_active sessions))
  /\ List.length (list_active sessions) <= List.length (keys sessions).
Proof.
  intros sessions. split.
  - apply wf_listing_NoDup.
    pose proof (reachable_wf now tes) as Hwf.
    apply wf_agent_split in Hwf. tauto.
  - unfold list_active, keys. rewrite !length_map. apply filter_length_le.
Qed.

(** ** Prompting documents and documents that hang up *)

Lemma generateTwiML_said id s :
  s <> EmptyString ->
  generateTwiML id (Some s)
  = if legal_text ("You said: " ++ s)
    then inr (prompt_twiml ("You said: " ++ s))
    else inl (InvalidCharacter ("You said: " ++ s)).
Proof.
  intros Hne. unfold generateTwiML, twiml_say.
  rewrite (truthy_nonempty _ Hne). simpl show.
  now destruct (legal_text ("You said: " ++ s)).
Qed.

Lemma generateTwiML_greets id speech :
  absent_or_empty speech ->
  generateTwiML id speech = inr (prompt_twiml greeting).
Proof.
  intros Ha. unfold generateTwiML. now rewrite (falsy_absent_or_empty _ Ha).
Qed.

(** X14: [generateTwiML] builds a document that never hangs up: it says
    one utterance (the echo "You said: ..." for a non-empty speech
    result, the greeting otherwise), gathers input for
    [/voice/handle-input] and falls back to [/voice/end-call]; it throws
    when the speech result holds a character XML forbids.  The
    incoming-call webhook always answers with the greeting document.
    The two webhooks that document names answer with a document that
    hangs up and hands the call on to no further webhook: the end-call
    webhook always, the input-received webhook unless the text to
    acknowledge holds a character XML forbids, in which case it answers
    500 with no document. *)
Theorem prompt_then_hang_up (id speech : field) (b : body) (w : World) :
  (forall s, speech = Some s -> s <> EmptyString ->
     (legal_text ("You said: " ++ s) = true ->
        generateTwiML id speech = inr (prompt_twiml ("You said: " ++ s)))
     /\ (legal_text ("You said: " ++ s) = false ->
           generateTwiML id speech
           = inl (InvalidCharacter ("You said: " ++ s))))
  /\ (absent_or_empty speech ->
        generateTwiML id speech = inr (prompt_twiml greeting))
  /\ (forall doc, generateTwiML id speech = inr doc ->
        hangs_up doc = false
        /\ targets doc = ["/voice/handle-input"; "/voice/end-call"]%string
        /\ exists t g, doc = [Say {| text := t; voice := Polly_Amy |};
                              g; Redirect "/voice/end-call"])
  /\ eval (IndexWebsocket.post_voice_incoming b) w
     = send_xml (prompt_twiml greeting)
  /\ eval (IndexJs.post_voice_incoming b) w
     = send_xml (prompt_twiml greeting)
  /\ ((exists doc, answered b w (send_xml doc)
                   /\ hangs_up doc = true /\ targets doc = [])
      \/ (exists t, legal_text t = false
                    /\ answered b w (error_response (InvalidCharacter t))))
  /\ (forall doc, handle_input_twiml (SpeechResult b) (Digits b) = inr doc ->
        answered b w (send_xml doc)
        /\ hangs_up doc = true /\ targets doc = [])
  /\ eval (IndexWebsocket.post_voice_end_call b) w = send_xml end_call_twiml
  /\ eval (IndexJs.post_voice_end_call b) w = send_xml end_call_twiml
  /\ hangs_up end_call_twiml = true
  /\ targets end_call_twiml = [].
Proof.
  assert (Hbuilt : forall t,
            handle_input_twiml (SpeechResult b) (Digits b)
            = (if legal_text t then inr (say_doc t)
               else inl (InvalidCharacter t)) ->
            forall doc,
              handle_input_twiml (SpeechResult b) (Digits b) = inr doc ->
              hangs_up doc = true /\ targets doc = []).
  { intros t E doc Hdoc. rewrite E in Hdoc.
    destruct (legal_text t); [|discriminate].
    injection Hdoc as <-. split; reflexivity. }
  assert (Hshape : exists t,
            handle_input_twiml (SpeechResult b) (Digits b)
            = (if legal_text t then inr (say_doc t)
               else inl (InvalidCharacter t))).
  { destruct (field_cases (SpeechResult b)) as [Ha|(s & Es & Hne)].
    - destruct (field_cases (Digits b)) as [Hb|(d & Ed & Hne)].
      + exists "No input received. Goodbye!"%string.
        now apply handle_input_nothing.
      + eexists. rewrite Ed. now apply handle_input_digits.
    - eexists. rewrite Es. now apply handle_input_transcript. }
  destruct Hshape as [t Ht].
  repeat match goal with |- _ /\ _ => split end.
  - intros s -> Hne. rewrite (generateTwiML_said id s Hne).
    split; intros Hl; now rewrite Hl.
  - apply generateTwiML_greets.
  - intros doc H.
    assert (Hd : exists u, doc = prompt_twiml u).
    { destruct (field_cases speech) as [Ha|(s & -> & Hne)].
      - rewrite (generateTwiML_greets id speech Ha) in H.
        injection H as <-. now eexists.
      - rewrite (generateTwiML_said id s Hne) in H.
        destruct (legal_text ("You said: " ++ s)); [|discriminate].
        injection H as <-. now eexists. }
    destruct Hd as [u ->].
    split; [reflexivity|]. split; [reflexivity|].
    eexists; eexists; reflexivity.
  - js. reflexivity.
  - js. reflexivity.
  - destruct (legal_text t) eqn:El.
    + left. exists (say_doc t). split; [|split; reflexivity].
      now apply handle_input_built.
    + right. exists t. split; [exact El|]. now apply handle_input_thrown.
  - intros doc Hdoc. split; [now apply handle_input_built|].
    now apply (Hbuilt t Ht).
  - apply end_call_response.
  - js. destruct (JsMap.has (CallSid b) (callSessions (agent w))); simpl;
      [|reflexivity].
    now destruct (JsMap.get (CallSid b) (callSessions (agent w))).
  - reflexivity.
  - reflexivity.
Qed.

Lemma prompt_then_hang_up_witness :
  generateTwiML (Some "CA1") (Some "hello")
  = inr [Say {| text := "You said: hello"; voice := Polly_Amy |};
         Gather {| numDigits := 1; action := "/voice/handle-input";
                   method := "POST"; timeout := 3; speechTimeout := "auto" |}
           [{| text := "Please say something or press a key.";
               voice := Polly_Amy |}];
         Redirect "/voice/end-call"]
  /\ answered body_hello (initial 0)
       (send_xml [Say {| text := "I understood: hello"; voice := Polly_Amy |};
                  Hangup]).
Proof.
  destruct (prompt_then_hang_up (Some "CA1") (Some "hello") body_hello
              (initial 0)) as (Hsaid & _ & _ & _ & _ & _ & Hin & _).
  split.
  - destruct (Hsaid "hello"%string) as (Hl & _);
      [reflexivity|discriminate|].
    apply Hl. reflexivity.
  - destruct (Hin (say_doc "I understood: hello")) as (Ha & _);
      [reflexivity|exact Ha].
Defined.
